(** * 301-redirect URL mapper: the matcher and the batch driver

    A shallow embedding of [301_redirect_CSV_mapper.py] and of the part of
    Python's [difflib.SequenceMatcher] that the script calls, followed by the
    properties of the matcher, of the batch processor and of the batch
    orchestrator.

    Conventions of the embedding.
    - A Python [str] is a sequence of code points.  The model keeps the
      strings whose code points are below 256 and stores one code point per
      [ascii]; [str.lower] is Python's case mapping on that range.
    - Lengths, indices and batch numbers are [nat]; Python's unbounded
      integers never go negative here, and the places where the source writes
      [j-1] or [i-k+1] are written so that truncated subtraction cannot bite.
    - A similarity score is the exact rational [2*M/T] of [ratio()].  Python
      divides in double precision; the correctly rounded quotient is monotone
      and separates distinct fractions whose denominators stay below 2^26, so
      [score > best_score] and [best_score > 0.6] agree with the exact
      comparisons for every pair of URLs shorter than 2^25 characters (the
      [csv] reader refuses fields longer than 131072 by default).
    - File-system effects are an ordered trace of [effect]s; [print] lines are
      diagnostics and are not part of the trace.
    - A call that raises is [None].  [os.makedirs] raises on the paths no file
      system can create, the empty path and a path with a NUL character; every
      other request (a directory to create, a file to open for writing, a line
      to print) is taken to be granted. *)

From Stdlib Require Import QArith DecimalString DecimalNat Ascii String.
From stdpp Require Import base list gmap strings sorting.

Open Scope nat_scope.

(** ** Python strings *)

Module Str.

(** The code points below 256 that [lower] moves: A-Z, and the Latin-1
    capitals U+00C0..U+00DE without the multiplication sign U+00D7.  Each of
    them goes 32 code points up. *)
Definition is_upper (c : ascii) : bool :=
  let n := nat_of_ascii c in
  (65 <=? n) && (n <=? 90) || (192 <=? n) && (n <=? 214) || (216 <=? n) && (n <=? 222).

Definition lower_char (c : ascii) : ascii :=
  if is_upper c then ascii_of_nat (nat_of_ascii c + 32) else c.

(** [s.lower()] *)
Fixpoint lower (s : string) : string :=
  match s with
  | EmptyString => EmptyString
  | String c s' => String (lower_char c) (lower s')
  end.

(** [s.startswith(p)] *)
Definition startswith (s p : string) : bool := String.prefix p s.

(** [str(n)] for a non-negative integer *)
Definition of_nat (n : nat) : string := NilZero.string_of_uint (Nat.to_uint n).

(** The characters of a string, as the sequence [SequenceMatcher] indexes. *)
Definition chars (s : string) : list ascii := list_ascii_of_string s.

(** Truth value of a string: only the empty string is falsy. *)
Definition truthy (s : string) : bool :=
  match s with EmptyString => false | String _ _ => true end.

End Str.

(** ** [difflib.SequenceMatcher(None, a, b)]

    [isjunk] is [None] and [autojunk] keeps its default [True]: the junk set
    [bjunk] is empty, so [isbjunk] is constantly false, the two loops of
    [find_longest_match] that extend a match over junk never iterate, and the
    two loops that extend over non-junk elements test element equality only. *)

Module difflib.

(** [Match(a, b, size)] *)
Record Match := mkMatch { m_a : nat; m_b : nat; m_size : nat }.

Definition enumerate {A} (l : list A) : list (nat * A) := imap pair l.

(** [indices = b2j.setdefault(elt, []); indices.append(i)] *)
Definition setdefault_append (b2j : gmap ascii (list nat)) (ie : nat * ascii)
  : gmap ascii (list nat) :=
  <[ie.2 := default [] (b2j !! ie.2) ++ [ie.1]]> b2j.

(** [__chain_b]: index the elements of [b], then purge the popular ones
    (those that occur more than [n // 100 + 1] times) when [n >= 200]. *)
Definition chain_b (b : list ascii) : gmap ascii (list nat) :=
  let b2j := foldl setdefault_append ∅ (enumerate b) in
  let n := length b in
  if decide (200 ≤ n) then
    let ntest := n / 100 + 1 in
    let popular : gset ascii := dom (filter (λ kv, ntest < length kv.2) b2j) in
    filter (λ kv, kv.1 ∉ popular) b2j
  else b2j.

Section Matcher.
(** The fields [self.a], [self.b] and [self.b2j]. *)
Variables a b : list ascii.
Variable b2j : gmap ascii (list nat).

(** [b2j.get(a[i], nothing)] *)
Definition b2j_get (i : nat) : list nat :=
  match a !! i with
  | Some elt => default [] (b2j !! elt)
  | None => []
  end.

(** [j2len.get(j-1, 0)]; for [j = 0] the key is [-1], never present. *)
Definition j2len_get_pred (j2len : gmap nat nat) (j : nat) : nat :=
  match j with
  | 0 => 0
  | S j' => default 0 (j2len !! j')
  end.

(** The inner loop [for j in b2j.get(a[i], nothing)], with its [continue]
    and [break].  [besti, bestj = i-k+1, j-k+1] are written [i+1-k] and
    [j+1-k]: [k] never exceeds [i+1] or [j+1]. *)
Fixpoint scan_row (i blo bhi : nat) (j2len : gmap nat nat) (js : list nat)
    (newj2len : gmap nat nat) (best : Match) : gmap nat nat * Match :=
  match js with
  | [] => (newj2len, best)
  | j :: js' =>
      if decide (j < blo) then scan_row i blo bhi j2len js' newj2len best
      else if decide (bhi ≤ j) then (newj2len, best)
      else
        let k := j2len_get_pred j2len j + 1 in
        scan_row i blo bhi j2len js' (<[j := k]> newj2len)
          (if decide (m_size best < k) then mkMatch (i + 1 - k) (j + 1 - k) k
           else best)
  end.

(** The outer loop [for i in range(alo, ahi)]. *)
Definition row_step (blo bhi : nat) (st : gmap nat nat * Match) (i : nat)
  : gmap nat nat * Match :=
  scan_row i blo bhi st.1 (b2j_get i) ∅ st.2.

Definition longest_run (alo ahi blo bhi : nat) : Match :=
  (foldl (row_step blo bhi) (∅, mkMatch alo blo 0) (seq alo (ahi - alo))).2.

(** [a[i] == b[j]] for indices in range *)
Definition elt_eq (i j : nat) : bool :=
  match a !! i, b !! j with
  | Some x, Some y => bool_decide (x = y)
  | _, _ => false
  end.

(** [while besti > alo and bestj > blo and a[besti-1] == b[bestj-1]] *)
Fixpoint extend_left (alo blo besti bestj bestsize : nat) : Match :=
  match besti, bestj with
  | S i', S j' =>
      if bool_decide (alo < besti) && bool_decide (blo < bestj) && elt_eq i' j'
      then extend_left alo blo i' j' (S bestsize)
      else mkMatch besti bestj bestsize
  | _, _ => mkMatch besti bestj bestsize
  end.

(** [while besti+bestsize < ahi and bestj+bestsize < bhi and
    a[besti+bestsize] == b[bestj+bestsize]: bestsize += 1].  The loop runs
    at most [ahi - (besti+bestsize)] times, which is the [fuel] passed. *)
Fixpoint extend_right (fuel ahi bhi besti bestj bestsize : nat) : Match :=
  match fuel with
  | 0 => mkMatch besti bestj bestsize
  | S fuel' =>
      if bool_decide (besti + bestsize < ahi) && bool_decide (bestj + bestsize < bhi)
         && elt_eq (besti + bestsize) (bestj + bestsize)
      then extend_right fuel' ahi bhi besti bestj (S bestsize)
      else mkMatch besti bestj bestsize
  end.

Definition find_longest_match (alo ahi blo bhi : nat) : Match :=
  let m := longest_run alo ahi blo bhi in
  let m := extend_left alo blo (m_a m) (m_b m) (m_size m) in
  extend_right (ahi - (m_a m + m_size m)) ahi bhi (m_a m) (m_b m) (m_size m).

(** The work list of [get_matching_blocks].  [queue] is kept with the last
    element of the Python list first: [queue.pop()] takes the head and
    [queue.append] conses.  Every iteration that finds a block splits its
    range into strictly shorter ones, so [2 * len(a) + 1] iterations are
    enough ([matching_loop_total] below); [None] is fuel exhaustion. *)
Fixpoint matching_loop (fuel : nat) (queue : list (nat * nat * nat * nat))
    (matching_blocks : list Match) : option (list Match) :=
  match queue with
  | [] => Some matching_blocks
  | (alo, ahi, blo, bhi) :: queue =>
      match fuel with
      | 0 => None
      | S fuel' =>
          let x := find_longest_match alo ahi blo bhi in
          let '(i, j, k) := (m_a x, m_b x, m_size x) in
          if decide (k = 0) then matching_loop fuel' queue matching_blocks
          else
            let queue :=
              if decide (alo < i ∧ blo < j) then (alo, i, blo, j) :: queue
              else queue in
            let queue :=
              if decide (i + k < ahi ∧ j + k < bhi)
              then (i + k, ahi, j + k, bhi) :: queue else queue in
            matching_loop fuel' queue (matching_blocks ++ [x])
      end
  end.

End Matcher.

(** Tuple order, as [matching_blocks.sort()] uses it. *)
Definition match_le (x y : Match) : Prop :=
  m_a x < m_a y ∨
  (m_a x = m_a y ∧ (m_b x < m_b y ∨ (m_b x = m_b y ∧ m_size x ≤ m_size y))).

Global Instance match_le_dec : RelDecision match_le.
Proof. intros x y. unfold match_le. apply _. Defined.

(** The loop that merges adjacent blocks; the state is
    [(i1, j1, k1, non_adjacent)]. *)
Definition collapse_step (st : nat * nat * nat * list Match) (x : Match)
  : nat * nat * nat * list Match :=
  let '(i1, j1, k1, non_adjacent) := st in
  if decide (i1 + k1 = m_a x ∧ j1 + k1 = m_b x)
  then (i1, j1, k1 + m_size x, non_adjacent)
  else (m_a x, m_b x, m_size x,
        if decide (k1 = 0) then non_adjacent
        else non_adjacent ++ [mkMatch i1 j1 k1]).

Definition collapse (la lb : nat) (matching_blocks : list Match) : list Match :=
  let '(i1, j1, k1, non_adjacent) := foldl collapse_step (0, 0, 0, []) matching_blocks in
  let non_adjacent :=
    if decide (k1 = 0) then non_adjacent else non_adjacent ++ [mkMatch i1 j1 k1] in
  non_adjacent ++ [mkMatch la lb 0].

Definition get_matching_blocks (a b : list ascii) : list Match :=
  let la := length a in
  let lb := length b in
  let matching_blocks :=
    default [] (matching_loop a b (chain_b b) (2 * la + 1) [(0, la, 0, lb)] []) in
  collapse la lb (merge_sort match_le matching_blocks).

(** [_calculate_ratio]: [2.0 * matches / length], and [1.0] when [length]
    is zero. *)
Definition calculate_ratio (matches length : nat) : Q :=
  if decide (length = 0) then 1%Q
  else (Z.of_nat (2 * matches) # Pos.of_nat length)%Q.

(** [SequenceMatcher(None, a, b).ratio()] *)
Definition ratio (a b : list ascii) : Q :=
  let matches := sum_list (m_size <$> get_matching_blocks a b) in
  calculate_ratio matches (length a + length b).

(** *** What the tables of [SequenceMatcher] hold *)

(** The positions of [c] in [b], in ascending order. *)
Definition indices (b : list ascii) (c : ascii) : list nat :=
  filter (λ j, b !! j = Some c) (seq 0 (length b)).

(** The elements [__chain_b] purges. *)
Definition popular (b : list ascii) (c : ascii) : Prop :=
  200 ≤ length b ∧ length b / 100 + 1 < length (indices b c).

Global Instance popular_dec b c : Decision (popular b c).
Proof. unfold popular. apply _. Defined.

(** Row [i] of the [j2len] table has an entry at column [j]: [a[i]] equals
    [b[j]], the element is indexed by [b2j], and [j] is in [blo, bhi). *)
Definition linked (a b : list ascii) (blo bhi i j : nat) : bool :=
  match a !! i, b !! j with
  | Some x, Some y => bool_decide (x = y ∧ ¬ popular b y ∧ blo ≤ j < bhi)
  | _, _ => false
  end.

(** The entry itself: the length of the run of linked pairs that ends at
    [(i, j)], over the rows from [alo] on. *)
Fixpoint run (a b : list ascii) (alo blo bhi i j : nat) : nat :=
  if linked a b blo bhi i j && bool_decide (alo ≤ i) then
    match i, j with
    | S i', S j' => S (run a b alo blo bhi i' j')
    | _, _ => 1
    end
  else 0.

(** The update of [besti, bestj, bestsize] at an entry of length [k]. *)
Definition improve (i : nat) (k : nat → nat) (best : Match) (j : nat) : Match :=
  if decide (m_size best < k j) then mkMatch (i + 1 - k j) (j + 1 - k j) (k j)
  else best.

(** [x] is a block of equal elements inside [alo, ahi) and [blo, bhi). *)
Definition block_ok (a b : list ascii) (alo ahi blo bhi : nat) (x : Match) : Prop :=
  alo ≤ m_a x ∧ m_a x + m_size x ≤ ahi ∧ blo ≤ m_b x ∧ m_b x + m_size x ≤ bhi
  ∧ ∀ t, t < m_size x → elt_eq a b (m_a x + t) (m_b x + t) = true.

(** The entry of the previous row that [j2len.get(j-1, 0)] reads. *)
Definition prev_run (a b : list ascii) (alo blo bhi i j : nat) : nat :=
  match i, j with
  | S i', S j' => run a b alo blo bhi i' j'
  | _, _ => 0
  end.

(** The best block after [n] rows: it is improved at every entry of the
    table, in row-major order. *)
Definition best_run (a b : list ascii) (alo blo bhi n : nat) : Match :=
  foldl (λ best i,
           foldl (improve i (run a b alo blo bhi i)) best
             (filter (λ j, blo ≤ j < bhi) (b2j_get a (chain_b b) i)))
    (mkMatch alo blo 0) (seq alo n).

(** The ranges on the work list of [get_matching_blocks]. *)
Definition range_ok (q : nat * nat * nat * nat) : Prop :=
  let '(alo, ahi, blo, bhi) := q in alo ≤ ahi ∧ blo ≤ bhi.

Definition a_span (q : nat * nat * nat * nat) : nat :=
  let '(alo, ahi, blo, bhi) := q in ahi - alo.

Definition b_span (q : nat * nat * nat * nat) : nat :=
  let '(alo, ahi, blo, bhi) := q in bhi - blo.

(** The two ranges hold the same elements. *)
Definition range_eq (a b : list ascii) (q : nat * nat * nat * nat) : Prop :=
  let '(alo, ahi, blo, bhi) := q in
  ahi - alo = bhi - blo ∧ ∀ t, t < ahi - alo → elt_eq a b (alo + t) (blo + t) = true.

(** What the state of the merging loop adds up to. *)
Definition collapse_weight (st : nat * nat * nat * list Match) : nat :=
  sum_list (m_size <$> st.2) + st.1.2.

(** The number of matching characters [ratio()] counts. *)
Definition matches (a b : list ascii) : nat :=
  sum_list (m_size <$> get_matching_blocks a b).

End difflib.

(** ** The script *)

(** [x > y] on scores *)
Definition Qgtb (x y : Q) : bool :=
  match (x ?= y)%Q with Gt => true | _ => false end.

(** The threshold [0.6] of [find_best_match]. *)
Definition threshold : Q := (6 # 10)%Q.

(** [if not url.startswith('/'): url = '/' + url], the two lines that
    [normalize_url] and [process_batch] (twice) both contain. *)
Definition ensure_slash (url : string) : string :=
  if negb (Str.startswith url "/") then "/" +:+ url else url.

Definition normalize_url (url : string) : string :=
  let url := ensure_slash url in
  Str.lower url.

(** One iteration of [for old_url in old_urls]; the state is
    [(best_match, best_score)]. *)
Definition match_step (normalized_new : string) (st : option string * Q)
    (old_url : string) : option string * Q :=
  let normalized_old := normalize_url old_url in
  let score := difflib.ratio (Str.chars normalized_new) (Str.chars normalized_old) in
  if Qgtb score st.2 then (Some old_url, score) else st.

Definition find_best_match (new_url : string) (old_urls : list string)
  : option string * Q :=
  let normalized_new := normalize_url new_url in
  let '(best_match, best_score) :=
    foldl (match_step normalized_new) (None, 0%Q) old_urls in
  if Qgtb best_score threshold then (best_match, best_score) else (None, 0%Q).

(** What [process_batch] does to the file system, in order. *)
Inductive effect :=
| Makedirs (path : string)
| WriteCsv (path : string) (rows : list (list string)).

(** The paths on which [os.makedirs(path, exist_ok=True)] raises whatever
    the file system holds: the empty path ([FileNotFoundError]) and a path
    with a NUL character ([ValueError]). *)
Definition unusable (path : string) : bool :=
  bool_decide (path = "") || bool_decide (Ascii.zero ∈ Str.chars path).

(** [os.makedirs(path, exist_ok=True)]; [None] when it raises. *)
Definition makedirs (path : string) : option effect :=
  if unusable path then None else Some (Makedirs path).

(** [os.path.join(output_dir, name)] on a POSIX system, for a relative
    [name]. *)
Definition path_join (dir name : string) : string :=
  if decide (dir = "") then name
  else if Str.startswith (String.rev dir) "/" then dir +:+ name
  else dir +:+ "/" +:+ name.

(** One iteration of [for i, new_url in enumerate(batch, 1)]; the state is
    [(matched_results, unmatched_results)].  [if matched_url:] is false for
    [None] and for the empty string. *)
Definition batch_step (old_urls : list string)
    (st : list (list string) * list (list string)) (new_url : string)
  : list (list string) * list (list string) :=
  let new_url := ensure_slash new_url in
  let '(matched_url, score) := find_best_match new_url old_urls in
  match matched_url with
  | Some matched_url =>
      if Str.truthy matched_url
      then (st.1 ++ [[new_url; ensure_slash matched_url]], st.2)
      else (st.1, st.2 ++ [[new_url]])
  | None => (st.1, st.2 ++ [[new_url]])
  end.

(** [os.path.join(output_dir, f'matched_urls_batch_{batch_number}.csv')] and
    its unmatched counterpart *)
Definition matched_output_path (output_dir : string) (batch_number : nat) : string :=
  path_join output_dir ("matched_urls_batch_" +:+ Str.of_nat batch_number +:+ ".csv").

Definition unmatched_output_path (output_dir : string) (batch_number : nat) : string :=
  path_join output_dir ("unmatched_urls_batch_" +:+ Str.of_nat batch_number +:+ ".csv").

(** [process_batch]: the effects of the call and the pair it returns, or
    [None] when [os.makedirs] raises; the loop has then run, nothing has been
    written and nothing is returned. *)
Definition process_batch (batch old_urls : list string) (batch_number : nat)
    (output_dir : string) : option (list effect * (nat * nat)) :=
  let '(matched_results, unmatched_results) :=
    foldl (batch_step old_urls) ([], []) batch in
  created ← makedirs output_dir;
  let matched_writes :=
    match matched_results with
    | [] => []
    | _ :: _ =>
        [WriteCsv (matched_output_path output_dir batch_number)
           (["cToUrl"; "cFromUrl"] :: matched_results)]
    end in
  let unmatched_writes :=
    match unmatched_results with
    | [] => []
    | _ :: _ =>
        [WriteCsv (unmatched_output_path output_dir batch_number)
           (["cToUrl"] :: unmatched_results)]
    end in
  Some (created :: matched_writes ++ unmatched_writes,
        (length matched_results, length unmatched_results)).

(** [[row[0] for row in reader if row]] *)
Definition first_column (rows : list (list string)) : list string :=
  flat_map (λ row, match row with [] => [] | url :: _ => [url] end) rows.

(** [l[start:stop]] for non-negative bounds *)
Definition slice {A} (l : list A) (start stop : nat) : list A :=
  take (stop - start) (drop start l).

(** [new_urls[start_idx:end_idx]] of iteration [batch_num] *)
Definition current_batch (new_urls : list string) (batch_size batch_num : nat)
  : list string :=
  let start_idx := batch_num * batch_size in
  let end_idx := start_idx + batch_size in
  slice new_urls start_idx end_idx.

(** [(len(new_urls) // batch_size) + 1] *)
Definition batch_count (total batch_size : nat) : nat := total / batch_size + 1.

(** The state of the orchestrator's loop. *)
Record run := mkRun {
  effects : list effect;
  total_matched : nat;
  total_unmatched : nat
}.

(** A [for] loop whose body may raise: the first exception ends the loop. *)
Definition for_loop {S A} (body : S → A → option S) (st : S) (l : list A)
  : option S :=
  foldl (λ acc x, acc ≫= λ st, body st x) (Some st) l.

(** One iteration of [for batch_num in range(batch_count)]. *)
Definition orchestrate_step (old_urls new_urls : list string)
    (output_dir : string) (batch_size : nat) (st : run) (batch_num : nat)
  : option run :=
  '(effs, (matched, unmatched)) ←
    process_batch (current_batch new_urls batch_size batch_num) old_urls
      (batch_num + 1) output_dir;
  Some (mkRun (effects st ++ effs) (total_matched st + matched)
          (total_unmatched st + unmatched)).

(** [map_urls_in_batches], from the rows the two CSV readers yield.  A zero
    [batch_size] raises [ZeroDivisionError] before any batch is processed, and
    a call of [process_batch] that raises ends the run: [None]. *)
Definition map_urls_in_batches (old_rows new_rows : list (list string))
    (output_dir : string) (batch_size : nat) : option run :=
  let old_urls := first_column old_rows in
  let new_urls := first_column new_rows in
  if decide (batch_size = 0) then None
  else
    let count := batch_count (length new_urls) batch_size in
    for_loop (orchestrate_step old_urls new_urls output_dir batch_size)
      (mkRun [] 0 0) (seq 0 count).

(** The slices that the loop of [map_urls_in_batches] hands to
    [process_batch], in order. *)
Definition batches (new_urls : list string) (batch_size : nat) : list (list string) :=
  current_batch new_urls batch_size <$> seq 0 (batch_count (length new_urls) batch_size).

(** ** Notions the properties are stated with *)

(** The similarity of a query and a candidate, as [find_best_match] computes
    it: the ratio of the two normalised strings. *)
Definition score (q c : string) : Q :=
  difflib.ratio (Str.chars (normalize_url q)) (Str.chars (normalize_url c)).

(** The row [process_batch] files under "matched" for a new URL, if it does:
    the matcher must return a non-empty old URL. *)
Definition matched_row (old_urls : list string) (new_url : string)
  : option (list string) :=
  match (find_best_match (ensure_slash new_url) old_urls).1 with
  | Some m => if Str.truthy m then Some [ensure_slash new_url; ensure_slash m] else None
  | None => None
  end.

(** The row it files under "unmatched" otherwise. *)
Definition unmatched_row (old_urls : list string) (new_url : string)
  : option (list string) :=
  match matched_row old_urls new_url with
  | Some _ => None
  | None => Some [ensure_slash new_url]
  end.

(** A CSV artifact: nothing for an empty result list, else one file made of
    the header row and the result rows. *)
Definition csv_artifact (path : string) (header : list string)
    (rows : list (list string)) : list effect :=
  match rows with
  | [] => []
  | _ :: _ => [WriteCsv path (header :: rows)]
  end.

(** What a call of [process_batch] that returns has done and returns: the
    directory, then one artifact per category, and the two counts. *)
Definition batch_result (batch old_urls : list string) (batch_number : nat)
    (output_dir : string) : list effect * (nat * nat) :=
  let matched_results := omap (matched_row old_urls) batch in
  let unmatched_results := omap (unmatched_row old_urls) batch in
  (Makedirs output_dir
     :: csv_artifact (matched_output_path output_dir batch_number)
          ["cToUrl"; "cFromUrl"] matched_results
     ++ csv_artifact (unmatched_output_path output_dir batch_number)
          ["cToUrl"] unmatched_results,
   (length matched_results, length unmatched_results)).

(** The paths an effect trace writes to. *)
Definition written_paths (effs : list effect) : list string :=
  flat_map (λ e, match e with WriteCsv path _ => [path] | Makedirs _ => [] end) effs.

(** Ceiling division, the batch count that leaves no empty batch. *)
Definition ceil_div (total batch_size : nat) : nat :=
  (total + batch_size - 1) / batch_size.

(** The orchestrator produced one batch more than needed, and its last batch
    is empty. *)
Definition extra_empty_batch (new_urls : list string) (batch_size : nat) : Prop :=
  length (batches new_urls batch_size) = ceil_div (length new_urls) batch_size + 1
  ∧ last (batches new_urls batch_size) = Some [].

(** The data rows an effect trace writes under a given header row, in
    order. *)
Definition data_rows (header : list string) (effs : list effect)
  : list (list string) :=
  flat_map (λ e, match e with
                 | WriteCsv _ (h :: rows) => if decide (h = header) then rows else []
                 | _ => []
                 end) effs.

(** The two paths [process_batch] may write for a batch number. *)
Definition batch_paths (dir : string) (batch_number : nat) : list string :=
  [matched_output_path dir batch_number; unmatched_output_path dir batch_number].

(** ** Lists of numbers *)

Lemma sum_list_app (l k : list nat) : sum_list (l ++ k) = sum_list l + sum_list k.
Proof. induction l as [|x l IH]; cbn; [done|]. rewrite IH. lia. Qed.

Lemma sum_list_perm (l k : list nat) : l ≡ₚ k → sum_list l = sum_list k.
Proof. induction 1; cbn; lia. Qed.

Lemma filter_ext_Forall {A} (P Q : A → Prop) `{!∀ x, Decision (P x)}
    `{!∀ x, Decision (Q x)} (l : list A) :
  Forall (λ x, P x ↔ Q x) l → filter P l = filter Q l.
Proof.
  induction 1 as [|x l Hx _ IH]; [done|].
  rewrite !filter_cons, IH. destruct (decide (P x)), (decide (Q x)); tauto.
Qed.

Lemma filter_sorted {A} (R : relation A) (P : A → Prop) `{!∀ x, Decision (P x)}
    (l : list A) :
  StronglySorted R l → StronglySorted R (filter P l).
Proof.
  induction 1 as [|x l _ IH Hx]; [constructor|].
  rewrite filter_cons. destruct (decide (P x)); [|done].
  constructor; [done|]. apply Forall_forall. intros y [_ Hy]%list_elem_of_filter.
  by eapply Forall_forall in Hx.
Qed.

Lemma seq_sorted (s n : nat) : StronglySorted lt (seq s n).
Proof.
  revert s. induction n as [|n IH]; intros s; cbn; constructor; [apply IH|].
  apply Forall_forall. intros j Hj%elem_of_seq. lia.
Qed.

Lemma filter_none {A} (P : A → Prop) `{!∀ x, Decision (P x)} (l : list A) :
  Forall (λ x, ¬ P x) l → filter P l = [].
Proof.
  induction 1 as [|x l Hx _ IH]; [done|]. by rewrite filter_cons_False.
Qed.

Lemma foldl_ext_in {A B} (f g : A → B → A) (l : list B) (acc : A) :
  (∀ x acc, x ∈ l → f acc x = g acc x) → foldl f acc l = foldl g acc l.
Proof.
  revert acc. induction l as [|x l IH]; intros acc Hfg; [done|].
  cbn. rewrite Hfg by (apply elem_of_cons; by left).
  apply IH. intros y acc' Hy. apply Hfg. apply elem_of_cons. by right.
Qed.

Lemma foldl_insert_lookup (k : nat → nat) (l : list nat) (m : gmap nat nat) (j : nat) :
  foldl (λ m j, <[j := k j]> m) m l !! j
  = if decide (j ∈ l) then Some (k j) else m !! j.
Proof.
  revert m. induction l as [|x l IH]; intros m; cbn [foldl].
  { rewrite decide_False; [done|]. apply not_elem_of_nil. }
  rewrite IH. destruct (decide (j ∈ l)) as [Hin|Hin].
  - rewrite decide_True; [done|]. apply elem_of_cons. by right.
  - destruct (decide (j = x)) as [->|Hne].
    + rewrite lookup_insert_eq, decide_True; [done|]. apply elem_of_cons. by left.
    + rewrite lookup_insert_ne by done. rewrite decide_False; [done|].
      intros [?|?]%elem_of_cons; done.
Qed.

Lemma foldl_preserve {A B} (P : A → Prop) (f : A → B → A) (l : list B) (acc : A) :
  P acc → (∀ x acc, x ∈ l → P acc → P (f acc x)) → P (foldl f acc l).
Proof.
  revert acc. induction l as [|x l IH]; intros acc Hacc Hf; [done|].
  cbn. apply IH.
  - apply Hf; [apply elem_of_cons; by left|done].
  - intros y acc' Hy. apply Hf. apply elem_of_cons. by right.
Qed.

Lemma imap_fmap_seq {A B} (f : nat → A → B) (g : nat → A) (n : nat) :
  imap f (g <$> seq 0 n) = (λ k, f k (g k)) <$> seq 0 n.
Proof.
  apply list_eq. intros i. rewrite list_lookup_imap, !list_lookup_fmap.
  destruct (seq 0 n !! i) as [k|] eqn:Hk; [|done].
  apply lookup_seq in Hk as [-> _]. done.
Qed.

(** ** The index [b2j] *)

Section ChainB.
Import difflib.

Lemma indices_snoc (b : list ascii) (x c : ascii) :
  indices (b ++ [x]) c = indices b c ++ (if decide (x = c) then [length b] else []).
Proof.
  unfold indices. rewrite length_app. cbn [length].
  rewrite Nat.add_1_r, seq_S, filter_app. cbn [plus]. f_equal.
  - apply filter_ext_Forall. apply Forall_forall. intros j Hj%elem_of_seq.
    by rewrite lookup_app_l by lia.
  - rewrite filter_cons, filter_nil.
    rewrite list_lookup_middle by done.
    destruct (decide (x = c)) as [->|Hne].
    + by rewrite decide_True.
    + rewrite decide_False; [done|]. by intros [= ?].
Qed.

Lemma indices_spec (b : list ascii) (c : ascii) (j : nat) :
  j ∈ indices b c ↔ b !! j = Some c.
Proof.
  unfold indices. rewrite list_elem_of_filter, elem_of_seq. split; [by intros [? _]|].
  intros Hj. split; [done|]. apply lookup_lt_Some in Hj. lia.
Qed.

Lemma indices_sorted (b : list ascii) (c : ascii) : StronglySorted lt (indices b c).
Proof.
  unfold indices. apply filter_sorted, seq_sorted.
Qed.

(** The index before the purge holds, for every element that occurs, the
    list of its positions. *)
Lemma index_lookup (b : list ascii) (c : ascii) :
  foldl setdefault_append ∅ (enumerate b) !! c
  = match indices b c with [] => None | l => Some l end.
Proof.
  induction b as [|x b IH] using rev_ind; [done|].
  unfold enumerate in *. rewrite imap_app, foldl_app. cbn [imap foldl].
  rewrite Nat.add_0_r, indices_snoc. unfold setdefault_append at 1. cbn [fst snd].
  destruct (decide (x = c)) as [->|Hne].
  - rewrite lookup_insert_eq, IH.
    destruct (indices b c); done.
  - rewrite lookup_insert_ne, IH, app_nil_r by done. done.
Qed.

(** [b2j.get(c, [])] after [__chain_b]: nothing for a popular element, the
    positions of [c] otherwise. *)
Lemma chain_b_get (b : list ascii) (c : ascii) :
  default [] (chain_b b !! c) = if decide (popular b c) then [] else indices b c.
Proof.
  unfold chain_b.
  pose proof (index_lookup b c) as Hidx.
  set (idx := foldl setdefault_append ∅ (enumerate b)) in *.
  destruct (decide (200 ≤ length b)) as [Hn|Hn].
  - set (pop := dom (filter (λ kv : ascii * list nat, length b / 100 + 1 < length kv.2) idx)).
    assert (Hpop : c ∈ pop ↔ popular b c).
    { unfold pop, popular. rewrite elem_of_dom. unfold is_Some.
      setoid_rewrite map_lookup_filter_Some. rewrite Hidx. cbn [snd]. split.
      - intros (l & Hl & Hlt). split; [done|].
        destruct (indices b c); [done|]. by injection Hl as <-.
      - intros [_ Hlt]. destruct (indices b c) as [|j l]; [cbn in Hlt; lia|]. eauto. }
    destruct (decide (popular b c)) as [Hp|Hp].
    + rewrite map_lookup_filter_None_2; [done|]. right. intros l _. cbn [fst]. tauto.
    + destruct (idx !! c) as [l|] eqn:Hc.
      * rewrite (map_lookup_filter_Some_2 _ _ _ l); [|done|cbn [fst]; tauto].
        destruct (indices b c); [done|]. by injection Hidx as <-.
      * rewrite map_lookup_filter_None_2 by auto.
        by destruct (indices b c).
  - rewrite decide_False; [|unfold popular; tauto].
    rewrite Hidx. by destruct (indices b c).
Qed.

End ChainB.

(** ** The longest matching block *)

Section LongestRun.
Import difflib.
Variables a b : list ascii.

Lemma b2j_get_spec (i : nat) :
  b2j_get a (chain_b b) i
  = match a !! i with
    | Some c => if decide (popular b c) then [] else indices b c
    | None => []
    end.
Proof. unfold b2j_get. destruct (a !! i); [apply chain_b_get|done]. Qed.

Lemma b2j_get_sorted (i : nat) : StronglySorted lt (b2j_get a (chain_b b) i).
Proof.
  rewrite b2j_get_spec. destruct (a !! i) as [c|]; [|constructor].
  case_decide; [constructor|apply indices_sorted].
Qed.

(** The columns the inner loop visits in row [i] without [continue] or
    [break] are the linked ones. *)
Lemma b2j_get_linked (blo bhi i j : nat) :
  j ∈ filter (λ j, blo ≤ j < bhi) (b2j_get a (chain_b b) i)
  ↔ linked a b blo bhi i j = true.
Proof.
  rewrite list_elem_of_filter, b2j_get_spec. unfold linked.
  destruct (a !! i) as [x|]; [|split; [by intros [_ ?%elem_of_nil]|done]].
  destruct (decide (popular b x)) as [Hp|Hp].
  - rewrite elem_of_nil. split; [tauto|].
    destruct (b !! j) as [y|]; [|done].
    intros (-> & ? & _)%bool_decide_eq_true. done.
  - rewrite indices_spec. destruct (b !! j) as [y|].
    + rewrite bool_decide_eq_true. split.
      * intros [? [= ->]]. done.
      * intros (-> & _ & ?). done.
    + split; [by intros [_ ?]|done].
Qed.

Lemma run_linked (alo blo bhi i j : nat) :
  linked a b blo bhi i j = true → alo ≤ i →
  run a b alo blo bhi i j = S (prev_run a b alo blo bhi i j).
Proof.
  intros Hl Hi. unfold prev_run. destruct i as [|i]; cbn [run]; rewrite Hl.
  - rewrite bool_decide_true by done. done.
  - rewrite bool_decide_true by done. cbn. by destruct j.
Qed.

Lemma run_not_linked (alo blo bhi i j : nat) :
  linked a b blo bhi i j = false → run a b alo blo bhi i j = 0.
Proof. intros Hl. destruct i; cbn [run]; by rewrite Hl. Qed.

Lemma run_before (alo blo bhi i j : nat) :
  i < alo → run a b alo blo bhi i j = 0.
Proof.
  intros Hi. destruct i; cbn [run]; rewrite bool_decide_false by lia;
    by rewrite andb_false_r.
Qed.

(** A run fits between the lower bounds and its end point. *)
Lemma run_bounds (alo blo bhi i j : nat) :
  run a b alo blo bhi i j ≤ i + 1 - alo ∧ run a b alo blo bhi i j ≤ j + 1 - blo.
Proof.
  revert j. induction i as [|i IH]; intros j.
  - cbn [run]. destruct (linked a b blo bhi 0 j) eqn:Hl; cbn; [|lia].
    case_bool_decide; [|lia].
    unfold linked in Hl. destruct (a !! 0), (b !! j); try done.
    apply bool_decide_eq_true in Hl. lia.
  - cbn [run]. destruct (linked a b blo bhi (S i) j) eqn:Hl; cbn; [|lia].
    case_bool_decide; [|lia].
    unfold linked in Hl. destruct (a !! S i), (b !! j); try done.
    apply bool_decide_eq_true in Hl.
    destruct j as [|j]; [lia|].
    destruct (IH j) as [H1 H2].
    destruct (decide (i < alo)); [rewrite run_before in * by done; lia|].
    destruct (linked a b blo bhi i j) eqn:Hl2.
    + unfold linked in Hl2. destruct (a !! i), (b !! j); try done.
      apply bool_decide_eq_true in Hl2. lia.
    + rewrite run_not_linked by done. lia.
Qed.

Lemma linked_elt_eq (blo bhi i j : nat) :
  linked a b blo bhi i j = true → elt_eq a b i j = true.
Proof.
  unfold linked, elt_eq. destruct (a !! i), (b !! j); try done.
  intros (-> & _)%bool_decide_eq_true. by apply bool_decide_eq_true.
Qed.

(** The elements along a run are equal. *)
Lemma run_elt_eq (alo blo bhi i j t : nat) :
  t < run a b alo blo bhi i j → elt_eq a b (i - t) (j - t) = true.
Proof.
  revert j t. induction i as [|i IH]; intros j t.
  - cbn [run]. destruct (linked a b blo bhi 0 j) eqn:Hl; cbn; [|lia].
    case_bool_decide; [|lia]. intros Ht. assert (t = 0) as -> by lia.
    rewrite ?Nat.sub_0_r. exact (linked_elt_eq _ _ _ _ Hl).
  - cbn [run]. destruct (linked a b blo bhi (S i) j) eqn:Hl; cbn; [|lia].
    case_bool_decide; [|lia]. destruct j as [|j].
    + intros Ht. assert (t = 0) as -> by lia. exact (linked_elt_eq _ _ _ _ Hl).
    + intros Ht. destruct t as [|t]; [exact (linked_elt_eq _ _ _ _ Hl)|].
      cbn. apply IH. lia.
Qed.

(** The inner loop, on an ascending list of columns: the columns below [blo]
    are skipped, the first column from [bhi] on ends the loop, and the
    others are entered and compared with the best block, in order. *)
Lemma scan_row_spec (i blo bhi : nat) (j2len : gmap nat nat) (js : list nat)
    (new : gmap nat nat) (best : Match) :
  StronglySorted lt js →
  scan_row i blo bhi j2len js new best
  = (foldl (λ m j, <[j := j2len_get_pred j2len j + 1]> m) new
       (filter (λ j, blo ≤ j < bhi) js),
     foldl (improve i (λ j, j2len_get_pred j2len j + 1)) best
       (filter (λ j, blo ≤ j < bhi) js)).
Proof.
  intros Hs. revert new best.
  induction Hs as [|j js Hs IH Hj]; intros new best; [done|].
  cbn [scan_row]. rewrite filter_cons.
  destruct (decide (j < blo)).
  { rewrite (decide_False (P := blo ≤ j < bhi)) by lia. apply IH. }
  destruct (decide (bhi ≤ j)).
  - rewrite (decide_False (P := blo ≤ j < bhi)) by lia.
    rewrite filter_none; [done|].
    eapply Forall_impl; [exact Hj|]. cbn. intros x Hx. lia.
  - rewrite (decide_True (P := blo ≤ j < bhi)) by lia. cbn [foldl].
    by rewrite IH.
Qed.

Lemma row_step_spec (blo bhi : nat) (st : gmap nat nat * Match) (i : nat) :
  row_step a (chain_b b) blo bhi st i
  = (foldl (λ m j, <[j := j2len_get_pred st.1 j + 1]> m) ∅
       (filter (λ j, blo ≤ j < bhi) (b2j_get a (chain_b b) i)),
     foldl (improve i (λ j, j2len_get_pred st.1 j + 1)) st.2
       (filter (λ j, blo ≤ j < bhi) (b2j_get a (chain_b b) i))).
Proof. unfold row_step. apply scan_row_spec, b2j_get_sorted. Qed.

(** After the rows [alo .. alo+n-1], [j2len] holds the runs that end in the
    last row and the best block is [best_run]. *)
Lemma rows_spec (alo blo bhi n : nat) :
  let st := foldl (row_step a (chain_b b) blo bhi) (∅, mkMatch alo blo 0) (seq alo n) in
  (∀ j, j2len_get_pred st.1 j = prev_run a b alo blo bhi (alo + n) j)
  ∧ st.2 = best_run a b alo blo bhi n.
Proof.
  induction n as [|n [IH1 IH2]]; cbn zeta.
  { split; [|done]. intros j. cbn [seq foldl fst]. rewrite Nat.add_0_r.
    unfold j2len_get_pred, prev_run. destruct j as [|j]; [by destruct alo|].
    rewrite lookup_empty. cbn. destruct alo as [|alo]; [done|].
    by rewrite run_before by lia. }
  cbn zeta in IH1, IH2. unfold best_run. rewrite !seq_S, !foldl_app. cbn [foldl].
  rewrite !row_step_spec. cbn [fst snd].
  set (i := alo + n) in *.
  set (js := filter (λ j, blo ≤ j < bhi) (b2j_get a (chain_b b) i)).
  assert (Hk : ∀ j, j ∈ js →
            j2len_get_pred
              (foldl (row_step a (chain_b b) blo bhi) (∅, mkMatch alo blo 0) (seq alo n)).1 j + 1
            = run a b alo blo bhi i j).
  { intros j Hj%b2j_get_linked. rewrite IH1, run_linked by (done || lia). lia. }
  split.
  - intros j. replace (alo + S n) with (S i) by lia.
    unfold j2len_get_pred at 1, prev_run. destruct j as [|j]; [done|].
    rewrite foldl_insert_lookup. destruct (decide (j ∈ js)) as [Hj|Hj].
    + cbn. by apply Hk.
    + rewrite lookup_empty. cbn. symmetry. apply run_not_linked.
      destruct (linked a b blo bhi i j) eqn:Hl; [|done].
      by apply b2j_get_linked in Hl.
  - rewrite IH2. apply foldl_ext_in. intros j best Hj.
    unfold improve. by rewrite Hk.
Qed.

Lemma longest_run_spec (alo ahi blo bhi : nat) :
  longest_run a (chain_b b) alo ahi blo bhi = best_run a b alo blo bhi (ahi - alo).
Proof. unfold longest_run. apply rows_spec. Qed.

Lemma improve_ok (alo ahi blo bhi i j : nat) (best : Match) :
  block_ok a b alo ahi blo bhi best → i < ahi → j < bhi →
  block_ok a b alo ahi blo bhi (improve i (run a b alo blo bhi i) best j).
Proof.
  intros Hbest Hi Hj. unfold improve. case_decide as Hlt; [|done].
  destruct (run_bounds alo blo bhi i j) as [Hbi Hbj].
  unfold block_ok. cbn [m_a m_b m_size].
  split; [lia|]. split; [lia|]. split; [lia|]. split; [lia|].
  intros t Ht.
  replace (i + 1 - run a b alo blo bhi i j + t)
    with (i - (run a b alo blo bhi i j - 1 - t)) by lia.
  replace (j + 1 - run a b alo blo bhi i j + t)
    with (j - (run a b alo blo bhi i j - 1 - t)) by lia.
  apply (run_elt_eq alo blo bhi). lia.
Qed.

Lemma best_run_ok (alo ahi blo bhi n : nat) :
  alo + n ≤ ahi → blo ≤ bhi → block_ok a b alo ahi blo bhi (best_run a b alo blo bhi n).
Proof.
  intros Hn Hb. unfold best_run. apply foldl_preserve.
  - unfold block_ok. cbn. split; [lia|]. split; [lia|]. split; [lia|].
    split; [lia|]. intros t Ht. lia.
  - intros i best Hi%elem_of_seq Hbest. apply foldl_preserve; [done|].
    intros j best' [Hj _]%list_elem_of_filter Hbest'.
    apply improve_ok; [done|lia|lia].
Qed.

Lemma extend_left_ok (alo ahi blo bhi i j k : nat) :
  block_ok a b alo ahi blo bhi (mkMatch i j k) →
  block_ok a b alo ahi blo bhi (extend_left a b alo blo i j k).
Proof.
  revert j k. induction i as [|i IH]; intros j k Hok; [done|].
  cbn [extend_left]. destruct j as [|j]; [done|].
  destruct (bool_decide (alo < S i) && bool_decide (blo < S j) && elt_eq a b i j)
    eqn:Hc; [|done].
  apply andb_prop in Hc as [[Hi%bool_decide_eq_true Hj%bool_decide_eq_true]%andb_prop He].
  apply IH. destruct Hok as (H1 & H2 & H3 & H4 & H5). cbn [m_a m_b m_size] in *.
  unfold block_ok. cbn [m_a m_b m_size].
  split; [lia|]. split; [lia|]. split; [lia|]. split; [lia|].
  intros [|t] Ht; [by rewrite !Nat.add_0_r|].
  replace (i + S t) with (S i + t) by lia. replace (j + S t) with (S j + t) by lia.
  apply H5. lia.
Qed.

Lemma extend_right_ok (fuel alo ahi blo bhi i j k : nat) :
  block_ok a b alo ahi blo bhi (mkMatch i j k) →
  block_ok a b alo ahi blo bhi (extend_right a b fuel ahi bhi i j k).
Proof.
  revert k. induction fuel as [|fuel IH]; intros k Hok; [done|].
  cbn [extend_right].
  destruct (bool_decide (i + k < ahi) && bool_decide (j + k < bhi)
            && elt_eq a b (i + k) (j + k)) eqn:Hc; [|done].
  apply andb_prop in Hc as [[Hi%bool_decide_eq_true Hj%bool_decide_eq_true]%andb_prop He].
  apply IH. destruct Hok as (H1 & H2 & H3 & H4 & H5). cbn [m_a m_b m_size] in *.
  unfold block_ok. cbn [m_a m_b m_size].
  split; [lia|]. split; [lia|]. split; [lia|]. split; [lia|].
  intros t Ht. destruct (decide (t = k)) as [->|Hne]; [done|]. apply H5. lia.
Qed.

(** The forward loop stops by its own test before the fuel runs out: more
    fuel than [ahi - (besti + bestsize)] changes nothing. *)
Lemma extend_right_fuel (fuel ahi bhi i j k : nat) :
  ahi - (i + k) ≤ fuel →
  extend_right a b fuel ahi bhi i j k
  = extend_right a b (ahi - (i + k)) ahi bhi i j k.
Proof.
  revert k. induction fuel as [|fuel IH]; intros k Hfuel.
  { by replace (ahi - (i + k)) with 0 by lia. }
  destruct (decide (i + k < ahi)) as [Hlt|Hge].
  - replace (ahi - (i + k)) with (S (ahi - (i + S k))) by lia.
    cbn [extend_right].
    destruct (bool_decide (i + k < ahi) && bool_decide (j + k < bhi)
              && elt_eq a b (i + k) (j + k)); [|done].
    apply IH. lia.
  - replace (ahi - (i + k)) with 0 by lia. cbn [extend_right].
    by rewrite (bool_decide_false (i + k < ahi)) by done.
Qed.

(** [find_longest_match] returns a block of equal elements inside the two
    ranges. *)
Lemma find_longest_match_ok (alo ahi blo bhi : nat) :
  alo ≤ ahi → blo ≤ bhi →
  block_ok a b alo ahi blo bhi (find_longest_match a b (chain_b b) alo ahi blo bhi).
Proof.
  intros Ha Hb. unfold find_longest_match. rewrite longest_run_spec.
  pose proof (best_run_ok alo ahi blo bhi (ahi - alo) ltac:(lia) Hb) as Hrun.
  destruct (best_run a b alo blo bhi (ahi - alo)) as [i j k]. cbn [m_a m_b m_size].
  pose proof (extend_left_ok _ _ _ _ _ _ _ Hrun) as Hleft.
  destruct (extend_left a b alo blo i j k) as [i' j' k']. cbn [m_a m_b m_size].
  by apply extend_right_ok.
Qed.

(** The work-list loop ends within its fuel.  The blocks it adds cover no
    more than the ranges on the list, in [a] and in [b]; when they cover all
    of both, every pair of ranges holds the same elements. *)
Lemma matching_loop_spec (fuel : nat) (queue : list (nat * nat * nat * nat))
    (acc : list Match) :
  Forall range_ok queue →
  sum_list ((λ q, 2 * a_span q + 1) <$> queue) ≤ fuel →
  ∃ blocks,
    matching_loop a b (chain_b b) fuel queue acc = Some (acc ++ blocks)
    ∧ sum_list (m_size <$> blocks) ≤ sum_list (a_span <$> queue)
    ∧ sum_list (m_size <$> blocks) ≤ sum_list (b_span <$> queue)
    ∧ (sum_list (m_size <$> blocks) = sum_list (a_span <$> queue) →
       sum_list (m_size <$> blocks) = sum_list (b_span <$> queue) →
       Forall (range_eq a b) queue).
Proof.
  revert queue acc. induction fuel as [|fuel IH]; intros queue acc Hok Hfuel.
  { destruct queue as [|q queue]; [|cbn in Hfuel; lia].
    exists []. cbn. rewrite app_nil_r. repeat split; auto. }
  destruct queue as [|[[[alo ahi] blo] bhi] queue].
  { exists []. cbn. rewrite app_nil_r. repeat split; auto. }
  apply Forall_cons in Hok as [[Ha Hb] Hok]. cbn [fmap list_fmap sum_list_with sum_list a_span b_span id] in *.
  cbn [matching_loop].
  pose proof (find_longest_match_ok alo ahi blo bhi Ha Hb) as Hx.
  destruct (find_longest_match a b (chain_b b) alo ahi blo bhi) as [i j k].
  destruct Hx as (H1 & H2 & H3 & H4 & H5). cbn [m_a m_b m_size] in *.
  destruct (decide (k = 0)) as [->|Hk].
  - destruct (IH queue acc Hok ltac:(lia)) as (blocks & Heq & Hla & Hlb & Hfull).
    exists blocks. split; [done|]. split; [lia|]. split; [lia|].
    intros Hea Heb. constructor.
    + cbn. split; [lia|]. intros t Ht. lia.
    + apply Hfull; lia.
  - set (queue1 := if decide (alo < i ∧ blo < j) then (alo, i, blo, j) :: queue else queue).
    set (queue2 := if decide (i + k < ahi ∧ j + k < bhi)
                   then (i + k, ahi, j + k, bhi) :: queue1 else queue1).
    assert (Hok2 : Forall range_ok queue2).
    { unfold queue2, queue1. repeat case_decide; repeat constructor; cbn; try lia; done. }
    assert (Hsa : sum_list (a_span <$> queue2) + k ≤ ahi - alo + sum_list (a_span <$> queue)
                  ∧ ((alo < i ∧ blo < j) ∨ sum_list (a_span <$> queue2) + k < ahi - alo + sum_list (a_span <$> queue) ∨ i = alo)
                  ∧ ((i + k < ahi ∧ j + k < bhi) ∨ sum_list (a_span <$> queue2) + k < ahi - alo + sum_list (a_span <$> queue) ∨ i + k = ahi)).
    { unfold queue2, queue1.
      repeat case_decide; cbn [fmap list_fmap sum_list_with sum_list a_span b_span id]; lia. }
    assert (Hsb : sum_list (b_span <$> queue2) + k ≤ bhi - blo + sum_list (b_span <$> queue)
                  ∧ ((alo < i ∧ blo < j) ∨ sum_list (b_span <$> queue2) + k < bhi - blo + sum_list (b_span <$> queue) ∨ j = blo)
                  ∧ ((i + k < ahi ∧ j + k < bhi) ∨ sum_list (b_span <$> queue2) + k < bhi - blo + sum_list (b_span <$> queue) ∨ j + k = bhi)).
    { unfold queue2, queue1.
      repeat case_decide; cbn [fmap list_fmap sum_list_with sum_list a_span b_span id]; lia. }
    assert (Hcost : sum_list ((λ q, 2 * a_span q + 1) <$> queue2) ≤ fuel).
    { unfold queue2, queue1.
      repeat case_decide; cbn [fmap list_fmap sum_list_with sum_list a_span b_span id]; lia. }
    destruct (IH queue2 (acc ++ [mkMatch i j k]) Hok2 Hcost)
      as (blocks & Heq & Hla & Hlb & Hfull).
    exists (mkMatch i j k :: blocks). rewrite Heq, <- app_assoc.
    split; [done|]. cbn [fmap list_fmap sum_list sum_list_with m_size id].
    split; [lia|]. split; [lia|]. intros Hea Heb.
    assert (Hq2 : Forall (range_eq a b) queue2) by (apply Hfull; lia).
    assert (Hl' : alo < i ∧ blo < j → range_eq a b (alo, i, blo, j)).
    { intros Hd. unfold queue2, queue1 in Hq2.
      rewrite (decide_True (P := alo < i ∧ blo < j)) in Hq2 by done.
      case_decide; [apply Forall_cons in Hq2 as [_ Hq2]|];
        by apply Forall_cons in Hq2 as [? _]. }
    assert (Hr' : i + k < ahi ∧ j + k < bhi → range_eq a b (i + k, ahi, j + k, bhi)).
    { intros Hd. unfold queue2 in Hq2.
      rewrite (decide_True (P := i + k < ahi ∧ j + k < bhi)) in Hq2 by done.
      by apply Forall_cons in Hq2 as [? _]. }
    assert (Hrest : Forall (range_eq a b) queue).
    { unfold queue2, queue1 in Hq2.
      repeat case_decide; repeat (apply Forall_cons in Hq2 as [_ Hq2]); done. }
    assert (Hleft : i - alo = j - blo
              ∧ ∀ t, t < i - alo → elt_eq a b (alo + t) (blo + t) = true).
    { destruct (decide (alo < i ∧ blo < j)) as [Hd|Hd]; [by apply Hl'|].
      split; [lia|]. intros t Ht. lia. }
    assert (Hright : ahi - (i + k) = bhi - (j + k)
              ∧ ∀ t, t < ahi - (i + k) → elt_eq a b (i + k + t) (j + k + t) = true).
    { destruct (decide (i + k < ahi ∧ j + k < bhi)) as [Hd|Hd]; [by apply Hr'|].
      split; [lia|]. intros t Ht. lia. }
    constructor; [|done].
    cbn. destruct Hleft as [Hl1 Hl2], Hright as [Hr1 Hr2]. split; [lia|].
    intros t Ht.
    destruct (decide (t < i - alo)); [by apply Hl2|].
    destruct (decide (t < i - alo + k)).
    + replace (alo + t) with (i + (t - (i - alo))) by lia.
      replace (blo + t) with (j + (t - (i - alo))) by lia.
      apply H5. lia.
    + replace (alo + t) with (i + k + (t - (i - alo) - k)) by lia.
      replace (blo + t) with (j + k + (t - (i - alo) - k)) by lia.
      apply Hr2. lia.
Qed.


End LongestRun.

(** ** A sequence against itself *)

Section SameSequence.
Import difflib.
Variable s : list ascii.

Lemma linked_sym (i j : nat) :
  linked s s 0 (length s) i j = linked s s 0 (length s) j i.
Proof.
  unfold linked. destruct (s !! i) as [x|] eqn:Hi, (s !! j) as [y|] eqn:Hj; try done.
  apply lookup_lt_Some in Hi, Hj.
  apply bool_decide_ext. split; intros (-> & Hp & Hr); (split; [done|split; [done|lia]]).
Qed.

Lemma linked_diag (i j : nat) :
  linked s s 0 (length s) i j = true → linked s s 0 (length s) i i = true.
Proof.
  unfold linked. destruct (s !! i) as [x|] eqn:Hi, (s !! j) as [y|] eqn:Hj; try done.
  apply lookup_lt_Some in Hi.
  intros (-> & Hp & Hr)%bool_decide_eq_true. apply bool_decide_eq_true.
  split; [done|split; [done|lia]].
Qed.

(** With [a = b] the table is symmetric, and no entry of a row exceeds the
    entry on the diagonal. *)
Lemma run_sym (i j : nat) :
  run s s 0 0 (length s) i j = run s s 0 0 (length s) j i.
Proof.
  revert j. induction i as [|i IH]; intros [|j]; cbn [run].
  - done.
  - by rewrite (linked_sym 0 (S j)).
  - by rewrite (linked_sym (S i) 0).
  - by rewrite (linked_sym (S i) (S j)), IH.
Qed.

Lemma run_diag_max (i j : nat) :
  run s s 0 0 (length s) i j ≤ run s s 0 0 (length s) i i.
Proof.
  revert j. induction i as [|i IH]; intros j.
  - cbn [run]. destruct (linked s s 0 (length s) 0 j) eqn:Hl;
      [|apply Nat.le_0_l].
    by rewrite (linked_diag _ _ Hl).
  - cbn [run]. destruct (linked s s 0 (length s) (S i) j) eqn:Hl;
      [|apply Nat.le_0_l].
    rewrite (linked_diag _ _ Hl), !bool_decide_true by lia. cbn [andb].
    destruct j as [|j]; [lia|]. specialize (IH j). lia.
Qed.

(** One row of a sequence against itself: the entries left of the diagonal
    were seen, transposed, in earlier rows, and the entries right of it are
    no longer than the diagonal one, so the best block changes on the
    diagonal only. *)
Lemma diag_row (i bs0 : nat) (js : list nat) (best : Match) :
  StronglySorted lt js →
  (∀ j, j ∈ js → j < i → run s s 0 0 (length s) i j ≤ bs0) →
  bs0 ≤ m_size best →
  m_a best = m_b best →
  m_a best + m_size best ≤ S i →
  (i ∈ js ∨ run s s 0 0 (length s) i i ≤ m_size best) →
  let best' := foldl (improve i (run s s 0 0 (length s) i)) best js in
  m_a best' = m_b best' ∧ m_a best' + m_size best' ≤ S i
  ∧ m_size best ≤ m_size best' ∧ run s s 0 0 (length s) i i ≤ m_size best'.
Proof.
  intros Hs. revert best.
  induction Hs as [|j js Hs IH Hj]; intros best Hlow Hbs Hd Hb Hi; cbn zeta.
  { cbn. destruct Hi as [Hi%elem_of_nil|Hi]; [done|]. auto. }
  cbn [foldl]. cbn zeta in IH.
  assert (Hlow' : ∀ j', j' ∈ js → j' < i → run s s 0 0 (length s) i j' ≤ bs0).
  { intros j' Hj' ?. apply Hlow; [|done]. apply elem_of_cons. by right. }
  destruct (decide (j = i)) as [->|Hne].
  - pose proof (run_bounds s s 0 0 (length s) i i) as [Hr _].
    assert (Hstep : let b1 := improve i (run s s 0 0 (length s) i) best i in
              m_a b1 = m_b b1 ∧ m_a b1 + m_size b1 ≤ S i ∧ m_size best ≤ m_size b1
              ∧ run s s 0 0 (length s) i i ≤ m_size b1).
    { unfold improve. case_decide; cbn [m_a m_b m_size]; lia. }
    cbn zeta in Hstep. destruct Hstep as (E1 & E2 & E3 & E4).
    destruct (IH (improve i (run s s 0 0 (length s) i) best i) Hlow'
                ltac:(lia) E1 E2 ltac:(by right)) as (F1 & F2 & F3 & F4).
    repeat split; [done|done|lia|done].
  - assert (Hsame : improve i (run s s 0 0 (length s) i) best j = best).
    { unfold improve. rewrite decide_False; [done|].
      destruct (decide (j < i)).
      - specialize (Hlow j ltac:(apply elem_of_cons; by left) ltac:(done)). lia.
      - destruct Hi as [Hi|Hi].
        + apply elem_of_cons in Hi as [->|Hi]; [done|].
          eapply Forall_forall in Hj; [|exact Hi]. lia.
        + pose proof (run_diag_max i j). lia. }
    rewrite Hsame. apply IH; try done.
    destruct Hi as [Hi|Hi]; [|by right].
    apply elem_of_cons in Hi as [->|Hi]; [done|by left].
Qed.

Lemma diag_rows (m : nat) :
  m ≤ length s →
  let best := best_run s s 0 0 (length s) m in
  m_a best = m_b best ∧ m_a best + m_size best ≤ m
  ∧ ∀ i j, i < m → run s s 0 0 (length s) i j ≤ m_size best.
Proof.
  induction m as [|m IH]; intros Hm; cbn zeta.
  { cbn. split; [done|]. split; [done|]. intros i j Hi. lia. }
  destruct (IH ltac:(lia)) as (D1 & D2 & D3). clear IH.
  unfold best_run in *. rewrite seq_S, foldl_app. cbn [foldl plus].
  set (best := foldl _ _ (seq 0 m)) in *.
  set (js := filter (λ j, 0 ≤ j < length s) (b2j_get s (chain_b s) m)).
  destruct (diag_row m (m_size best) js best) as (E1 & E2 & E3 & E4).
  - apply filter_sorted, b2j_get_sorted.
  - intros j _ Hj. rewrite run_sym. by apply D3.
  - done.
  - done.
  - lia.
  - destruct (linked s s 0 (length s) m m) eqn:Hl.
    + left. by apply b2j_get_linked.
    + right. rewrite run_not_linked by done. lia.
  - split; [done|]. split; [done|]. intros i j Hi.
    destruct (decide (i = m)) as [->|Hne].
    + pose proof (run_diag_max m j). lia.
    + specialize (D3 i j ltac:(lia)). lia.
Qed.

Lemma elt_eq_same (t : nat) : t < length s → elt_eq s s t t = true.
Proof.
  intros Ht. unfold elt_eq. destruct (lookup_lt_is_Some_2 s t Ht) as [x ->].
  by apply bool_decide_eq_true.
Qed.

Lemma extend_left_same (p k : nat) :
  p ≤ length s → extend_left s s 0 0 p p k = mkMatch 0 0 (p + k).
Proof.
  revert k. induction p as [|p IH]; intros k Hp; [done|].
  cbn [extend_left]. rewrite elt_eq_same by lia.
  rewrite !bool_decide_true by lia. cbn [andb]. rewrite IH by lia. f_equal. lia.
Qed.

Lemma extend_right_same (fuel k : nat) :
  k + fuel = length s →
  extend_right s s fuel (length s) (length s) 0 0 k = mkMatch 0 0 (length s).
Proof.
  revert k. induction fuel as [|fuel IH]; intros k Hk; cbn [extend_right].
  { f_equal. lia. }
  cbn [plus]. rewrite elt_eq_same by lia.
  rewrite !bool_decide_true by lia. cbn [andb]. apply IH. lia.
Qed.

(** The longest match of a sequence with itself is the whole sequence, also
    when popular elements were purged from the index. *)
Lemma find_longest_match_same :
  find_longest_match s s (chain_b s) 0 (length s) 0 (length s)
  = mkMatch 0 0 (length s).
Proof.
  unfold find_longest_match. rewrite longest_run_spec, Nat.sub_0_r.
  destruct (diag_rows (length s) ltac:(done)) as (D1 & D2 & _).
  destruct (best_run s s 0 0 (length s) (length s)) as [p q k].
  cbn [m_a m_b m_size] in *. subst q.
  rewrite extend_left_same by lia. cbn [m_a m_b m_size].
  apply extend_right_same. lia.
Qed.

Lemma matching_loop_same :
  matching_loop s s (chain_b s) (2 * length s + 1) [(0, length s, 0, length s)] []
  = Some (if decide (length s = 0) then [] else [mkMatch 0 0 (length s)]).
Proof.
  replace (2 * length s + 1) with (S (2 * length s)) by lia.
  cbn [matching_loop]. rewrite find_longest_match_same. cbn [m_a m_b m_size].
  destruct (decide (length s = 0)) as [Hn|Hn]; [by destruct (2 * length s)|].
  rewrite !decide_False by lia. by destruct (2 * length s).
Qed.

End SameSequence.

(** ** Matching blocks and the ratio *)

Section Ratio.
Import difflib.

Lemma collapse_step_weight (st : nat * nat * nat * list Match) (x : Match) :
  collapse_weight (collapse_step st x) = collapse_weight st + m_size x.
Proof.
  destruct st as [[[i1 j1] k1] na]. unfold collapse_step, collapse_weight.
  repeat case_decide; cbn [fst snd]; rewrite ?fmap_app, ?sum_list_app; cbn; lia.
Qed.

Lemma collapse_loop_weight (l : list Match) (st : nat * nat * nat * list Match) :
  collapse_weight (foldl collapse_step st l)
  = collapse_weight st + sum_list (m_size <$> l).
Proof.
  revert st. induction l as [|x l IH]; intros st; cbn [foldl].
  { cbn. lia. }
  rewrite IH, collapse_step_weight. cbn. lia.
Qed.

(** Merging adjacent blocks and appending the sentinel keeps the total
    size. *)
Lemma collapse_sum (la lb : nat) (l : list Match) :
  sum_list (m_size <$> collapse la lb l) = sum_list (m_size <$> l).
Proof.
  unfold collapse. pose proof (collapse_loop_weight l (0, 0, 0, [])) as Hw.
  destruct (foldl collapse_step (0, 0, 0, []) l) as [[[i1 j1] k1] na].
  unfold collapse_weight in Hw. cbn [fst snd] in Hw.
  case_decide; rewrite ?fmap_app, ?sum_list_app; cbn in *; lia.
Qed.

Lemma matches_raw (a b : list ascii) (blocks : list Match) :
  matching_loop a b (chain_b b) (2 * length a + 1) [(0, length a, 0, length b)] []
  = Some blocks →
  matches a b = sum_list (m_size <$> blocks).
Proof.
  intros Heq. unfold matches, get_matching_blocks. rewrite Heq. cbn [default].
  rewrite collapse_sum. apply sum_list_perm, fmap_Permutation, merge_sort_Permutation.
Qed.

(** The loop of [get_matching_blocks] ends within its fuel. *)
Lemma matching_loop_total (a b : list ascii) :
  is_Some (matching_loop a b (chain_b b) (2 * length a + 1)
             [(0, length a, 0, length b)] []).
Proof.
  destruct (matching_loop_spec a b (2 * length a + 1) [(0, length a, 0, length b)] [])
    as (blocks & Heq & _).
  - repeat constructor; cbn; lia.
  - cbn. lia.
  - rewrite Heq. eauto.
Qed.

(** The matching characters are at most the length of either string, and
    they are all of both only when the strings are equal. *)
Lemma matches_bounds (a b : list ascii) :
  matches a b ≤ length a ∧ matches a b ≤ length b
  ∧ (matches a b = length a → matches a b = length b → a = b).
Proof.
  destruct (matching_loop_spec a b (2 * length a + 1) [(0, length a, 0, length b)] [])
    as (blocks & Heq & Hla & Hlb & Hfull).
  { repeat constructor; cbn; lia. }
  { cbn. lia. }
  rewrite (matches_raw a b blocks Heq).
  cbn [fmap list_fmap sum_list sum_list_with a_span b_span id] in *.
  split; [lia|]. split; [lia|]. intros Ha Hb.
  pose proof (Hfull ltac:(lia) ltac:(lia)) as Hq.
  apply Forall_cons in Hq as [[Hlen Helt] _]. cbn in Hlen, Helt.
  apply list_eq. intros t. destruct (decide (t < length a)) as [Ht|Ht].
  - specialize (Helt t ltac:(lia)). unfold elt_eq in Helt.
    destruct (a !! t), (b !! t); try done. by apply bool_decide_eq_true in Helt as ->.
  - rewrite !lookup_ge_None_2 by lia. done.
Qed.

Lemma matches_same (s : list ascii) : matches s s = length s.
Proof.
  rewrite (matches_raw s s _ (matching_loop_same s)).
  case_decide; cbn; lia.
Qed.

Lemma calculate_ratio_le_1 (m t : nat) :
  2 * m ≤ t → (calculate_ratio m t <= 1)%Q.
Proof.
  intros Hm. unfold calculate_ratio. case_decide as Ht; [apply Qle_refl|].
  unfold Qle. cbn [Qnum Qden]. rewrite <- (positive_nat_Z (Pos.of_nat t)), Nat2Pos.id by done. lia.
Qed.

Lemma calculate_ratio_1 (m t : nat) :
  (calculate_ratio m t == 1)%Q ↔ t = 0 ∨ 2 * m = t.
Proof.
  unfold calculate_ratio. case_decide as Ht; [by split; auto|].
  unfold Qeq. cbn [Qnum Qden]. rewrite <- (positive_nat_Z (Pos.of_nat t)), Nat2Pos.id by done. lia.
Qed.

Lemma ratio_le_1 (a b : list ascii) : (ratio a b <= 1)%Q.
Proof.
  unfold ratio. fold (matches a b). apply calculate_ratio_le_1.
  pose proof (matches_bounds a b). lia.
Qed.

Lemma ratio_same (s : list ascii) : (ratio s s == 1)%Q.
Proof.
  unfold ratio. fold (matches s s). apply calculate_ratio_1.
  rewrite matches_same. lia.
Qed.

Lemma ratio_1_inv (a b : list ascii) : (ratio a b == 1)%Q → a = b.
Proof.
  unfold ratio. fold (matches a b). intros [Ht|Hm]%calculate_ratio_1.
  - destruct a, b; cbn in Ht; try lia. done.
  - pose proof (matches_bounds a b) as (Ha & Hb & Heq). apply Heq; lia.
Qed.

End Ratio.


(** ** Strings and normalisation *)

Lemma lower_char_not_upper (c : ascii) : Str.is_upper (Str.lower_char c) = false.
Proof. destruct c as [[] [] [] [] [] [] [] []]; reflexivity. Qed.

Lemma lower_char_fixed (c : ascii) :
  Str.is_upper c = false → Str.lower_char c = c.
Proof. unfold Str.lower_char. intros ->. reflexivity. Qed.

Lemma lower_idemp (s : string) : Str.lower (Str.lower s) = Str.lower s.
Proof.
  induction s as [|c s IH]; simpl; [reflexivity|].
  rewrite IH. f_equal. apply lower_char_fixed, lower_char_not_upper.
Qed.


Lemma startswith_slash_inv (s : string) :
  Str.startswith s "/" = true → ∃ s', s = String "/" s'.
Proof.
  unfold Str.startswith. destruct s as [|c s]; [discriminate|].
  cbn [String.prefix]. destruct (ascii_dec "/" c) as [<-|]; [eauto|discriminate].
Qed.

Lemma startswith_slash_cons (s : string) : Str.startswith (String "/" s) "/" = true.
Proof.
  unfold Str.startswith. cbn [String.prefix].
  destruct (ascii_dec "/" "/"); [by destruct s|congruence].
Qed.

Lemma ensure_slash_startswith (u : string) : Str.startswith (ensure_slash u) "/" = true.
Proof.
  unfold ensure_slash. destruct (Str.startswith u "/") eqn:E; simpl; [exact E|].
  apply startswith_slash_cons.
Qed.

Lemma ensure_slash_fixed (u : string) :
  Str.startswith u "/" = true → ensure_slash u = u.
Proof. unfold ensure_slash. intros ->. reflexivity. Qed.

Lemma ensure_slash_idemp (u : string) : ensure_slash (ensure_slash u) = ensure_slash u.
Proof. apply ensure_slash_fixed, ensure_slash_startswith. Qed.

Lemma lower_startswith_slash (s : string) :
  Str.startswith s "/" = true → Str.startswith (Str.lower s) "/" = true.
Proof.
  intros [s' ->]%startswith_slash_inv. simpl.
  change (Str.lower_char "/") with "/"%char. apply startswith_slash_cons.
Qed.

Lemma normalize_url_startswith (u : string) :
  Str.startswith (normalize_url u) "/" = true.
Proof. apply lower_startswith_slash, ensure_slash_startswith. Qed.

Lemma normalize_url_idemp (u : string) :
  normalize_url (normalize_url u) = normalize_url u.
Proof.
  unfold normalize_url at 1.
  rewrite ensure_slash_fixed by apply normalize_url_startswith.
  apply lower_idemp.
Qed.

Lemma normalize_ensure_slash (u : string) :
  normalize_url (ensure_slash u) = normalize_url u.
Proof. unfold normalize_url. by rewrite ensure_slash_idemp. Qed.


(** ** Comparing scores *)

Lemma Qgtb_true (x y : Q) : Qgtb x y = true ↔ (y < x)%Q.
Proof.
  unfold Qgtb. rewrite Qgt_alt. destruct (x ?= y)%Q; split; congruence.
Qed.

Lemma Qgtb_false (x y : Q) : Qgtb x y = false ↔ (x <= y)%Q.
Proof.
  unfold Qgtb. rewrite Qle_alt. destruct (x ?= y)%Q; split; congruence.
Qed.

(** ** The scan of [find_best_match] *)

(** Either no candidate beats the initial score and the state is unchanged,
    or the state holds the first candidate whose score is the largest. *)
Lemma match_loop_spec (q : string) (C : list string) (bm0 : option string) (bs0 : Q) :
  (foldl (match_step (normalize_url q)) (bm0, bs0) C = (bm0, bs0)
   ∧ ∀ c, c ∈ C → (score q c <= bs0)%Q)
  ∨ ∃ pre c post,
      C = pre ++ c :: post
      ∧ foldl (match_step (normalize_url q)) (bm0, bs0) C = (Some c, score q c)
      ∧ (bs0 < score q c)%Q
      ∧ (∀ c', c' ∈ pre → (score q c' < score q c)%Q)
      ∧ (∀ c', c' ∈ post → (score q c' <= score q c)%Q).
Proof.
  revert bm0 bs0. induction C as [|c C IH]; intros bm0 bs0.
  { left. split; [reflexivity|]. intros c Hc. by apply elem_of_nil in Hc. }
  cbn [foldl]. unfold match_step at 2 4. cbn [snd]. fold (score q c).
  destruct (Qgtb (score q c) bs0) eqn:Hgt.
  - apply Qgtb_true in Hgt. right.
    destruct (IH (Some c) (score q c)) as [[Heq Hle]|(pre & c2 & post & -> & Heq & Hlt & Hpre & Hpost)].
    + exists [], c, C. repeat split; auto.
      intros c' Hc'. by apply elem_of_nil in Hc'.
    + exists (c :: pre), c2, post. repeat split; auto.
      * by eapply Qlt_trans.
      * intros c' [->|Hc']%elem_of_cons; auto.
  - apply Qgtb_false in Hgt.
    destruct (IH bm0 bs0) as [[Heq Hle]|(pre & c2 & post & -> & Heq & Hlt & Hpre & Hpost)].
    + left. split; [done|]. intros c' [->|Hc']%elem_of_cons; auto.
    + right. exists (c :: pre), c2, post. repeat split; auto.
      intros c' [->|Hc']%elem_of_cons; auto. by eapply Qle_lt_trans.
Qed.

(** The two outcomes of [find_best_match]. *)
Lemma find_best_match_cases (q : string) (C : list string) :
  (find_best_match q C = (None, 0%Q) ∧ ∀ c, c ∈ C → (score q c <= threshold)%Q)
  ∨ ∃ pre c post,
      C = pre ++ c :: post
      ∧ find_best_match q C = (Some c, score q c)
      ∧ (threshold < score q c)%Q
      ∧ (∀ c', c' ∈ pre → (score q c' < score q c)%Q)
      ∧ (∀ c', c' ∈ post → (score q c' <= score q c)%Q).
Proof.
  unfold find_best_match.
  destruct (match_loop_spec q C None 0%Q)
    as [[-> Hle]|(pre & c & post & -> & -> & Hlt & Hpre & Hpost)].
  - left. split; [reflexivity|]. intros c Hc.
    eapply Qle_trans; [by apply Hle|]. discriminate.
  - destruct (Qgtb (score q c) threshold) eqn:Hgt.
    + apply Qgtb_true in Hgt. right. by exists pre, c, post.
    + apply Qgtb_false in Hgt. left. split; [reflexivity|].
      intros c' [Hc'|[->|Hc']%elem_of_cons]%elem_of_app.
      * eapply Qle_trans; [apply Qlt_le_weak, Hpre, Hc'|done].
      * done.
      * eapply Qle_trans; [apply Hpost, Hc'|done].
Qed.

Lemma find_best_match_some (q : string) (C : list string) (c : string) (s : Q) :
  find_best_match q C = (Some c, s) →
  ∃ pre post,
    C = pre ++ c :: post ∧ s = score q c ∧ (threshold < s)%Q
    ∧ (∀ c', c' ∈ pre → (score q c' < s)%Q)
    ∧ (∀ c', c' ∈ post → (score q c' <= s)%Q).
Proof.
  intros Hres.
  destruct (find_best_match_cases q C)
    as [[Heq _]|(pre & c2 & post & HC & Heq & Hlt & Hpre & Hpost)];
    rewrite Heq in Hres; [discriminate|].
  injection Hres as -> <-. by exists pre, post.
Qed.

(** ** The batch processor *)

Lemma batch_step_spec (old_urls : list string) (ms us : list (list string)) (u : string) :
  batch_step old_urls (ms, us) u
  = (ms ++ option_list (matched_row old_urls u),
     us ++ option_list (unmatched_row old_urls u)).
Proof.
  unfold batch_step, unmatched_row, matched_row.
  destruct (find_best_match (ensure_slash u) old_urls) as [[m|] sc]; cbn [fst snd].
  - destruct (Str.truthy m); cbn; by rewrite ?app_nil_r.
  - cbn. by rewrite app_nil_r.
Qed.

Lemma omap_cons_option_list {A B} (f : A → option B) (x : A) (l : list A) :
  omap f (x :: l) = option_list (f x) ++ omap f l.
Proof. cbn. by destruct (f x). Qed.

Lemma batch_loop_spec (old_urls batch : list string) (ms us : list (list string)) :
  foldl (batch_step old_urls) (ms, us) batch
  = (ms ++ omap (matched_row old_urls) batch, us ++ omap (unmatched_row old_urls) batch).
Proof.
  revert ms us. induction batch as [|u batch IH]; intros ms us.
  { cbn. by rewrite !app_nil_r. }
  cbn [foldl]. rewrite batch_step_spec, IH, !omap_cons_option_list.
  by rewrite <- !app_assoc.
Qed.

Lemma unusable_false (path : string) :
  unusable path = false ↔ path ≠ "" ∧ Ascii.zero ∉ Str.chars path.
Proof.
  unfold unusable. rewrite orb_false_iff, !bool_decide_eq_false. done.
Qed.

Lemma is_Some_unusable {A} (path : string) (x : A) :
  is_Some (if unusable path then None else Some x)
  ↔ path ≠ "" ∧ Ascii.zero ∉ Str.chars path.
Proof.
  rewrite <- unusable_false. destruct (unusable path).
  - split; [intros [? ?]; discriminate|discriminate].
  - split; [done|]. intros _. by eexists.
Qed.

Lemma process_batch_spec (batch old_urls : list string) (n : nat) (dir : string) :
  process_batch batch old_urls n dir
  = if unusable dir then None else Some (batch_result batch old_urls n dir).
Proof.
  unfold process_batch, batch_result, makedirs. rewrite batch_loop_spec. cbn [app].
  destruct (unusable dir); [done|]. cbn.
  by destruct (omap (matched_row old_urls) batch),
    (omap (unmatched_row old_urls) batch).
Qed.

Lemma process_batch_Some (batch old_urls : list string) (n : nat) (dir : string)
    (r : list effect * (nat * nat)) :
  process_batch batch old_urls n dir = Some r ↔
  unusable dir = false ∧ r = batch_result batch old_urls n dir.
Proof.
  rewrite process_batch_spec. destruct (unusable dir).
  - split; [done|]. by intros [? _].
  - split; [by intros [= <-]|]. by intros [_ ->].
Qed.


Lemma matched_unmatched_length (old_urls batch : list string) :
  length (omap (matched_row old_urls) batch)
  + length (omap (unmatched_row old_urls) batch) = length batch.
Proof.
  induction batch as [|u batch IH]; [reflexivity|].
  rewrite !omap_cons_option_list, !length_app. unfold unmatched_row at 1.
  destruct (matched_row old_urls u); cbn in *; lia.
Qed.


Lemma unmatched_row_shape (old_urls : list string) (u : string) (row : list string) :
  unmatched_row old_urls u = Some row → row = [ensure_slash u].
Proof.
  unfold unmatched_row. destruct (matched_row old_urls u); [discriminate|].
  by intros [= <-].
Qed.

Lemma string_app_cons (c : ascii) (s t : string) :
  String c s +:+ t = String c (s +:+ t).
Proof. reflexivity. Qed.

Lemma string_app_assoc (s1 s2 s3 : string) :
  (s1 +:+ s2) +:+ s3 = s1 +:+ (s2 +:+ s3).
Proof.
  induction s1 as [|c s1 IH]; [reflexivity|].
  by rewrite !string_app_cons, IH.
Qed.

Lemma path_join_prefix (dir : string) :
  ∃ pre, ∀ name, path_join dir name = pre +:+ name.
Proof.
  unfold path_join. destruct (decide (dir = "")).
  { by exists "". }
  destruct (Str.startswith (String.rev dir) "/").
  - by exists dir.
  - exists (dir +:+ "/"). intros name. symmetry. apply string_app_assoc.
Qed.


(** ** The batch orchestrator *)

Lemma current_batch_lookup (l : list string) (bs k j : nat) :
  current_batch l bs k !! j = if decide (j < bs) then l !! (k * bs + j) else None.
Proof.
  unfold current_batch, slice.
  replace (k * bs + bs - k * bs) with bs by lia.
  rewrite lookup_take, lookup_drop. done.
Qed.

Lemma current_batch_length (l : list string) (bs k : nat) :
  length (current_batch l bs k) = bs `min` (length l - k * bs).
Proof.
  unfold current_batch, slice.
  replace (k * bs + bs - k * bs) with bs by lia.
  by rewrite length_take, length_drop.
Qed.

Lemma batches_length (l : list string) (bs : nat) :
  length (batches l bs) = length l / bs + 1.
Proof. unfold batches, batch_count. by rewrite length_fmap, length_seq. Qed.

Lemma batches_lookup (l : list string) (bs k : nat) (batch : list string) :
  batches l bs !! k = Some batch
  ↔ k < length l / bs + 1 ∧ batch = current_batch l bs k.
Proof.
  unfold batches, batch_count. rewrite list_lookup_fmap. split.
  - destruct (seq 0 (length l / bs + 1) !! k) as [k'|] eqn:Hk; [|discriminate].
    apply lookup_seq in Hk as [-> Hlt]. cbn. intros [= <-]. done.
  - intros [Hlt ->]. by rewrite lookup_seq_lt.
Qed.

Lemma concat_current_batches (l : list string) (bs n : nat) :
  concat (current_batch l bs <$> seq 0 n) = take (n * bs) l.
Proof.
  induction n as [|n IH]; [by rewrite take_0|].
  rewrite seq_S, fmap_app, concat_app, IH. cbn [fmap list_fmap concat].
  rewrite app_nil_r. unfold current_batch, slice.
  replace (n * bs + bs - n * bs) with bs by lia.
  rewrite take_take_drop. f_equal. lia.
Qed.

Lemma batch_count_covers (total bs : nat) :
  0 < bs → total ≤ batch_count total bs * bs.
Proof.
  intros Hbs. unfold batch_count.
  pose proof (Nat.div_mod_eq total bs) as Hdm.
  pose proof (Nat.mod_upper_bound total bs ltac:(lia)) as Hr.
  nia.
Qed.

Lemma ceil_div_multiple (total bs : nat) :
  0 < bs → (total / bs = ceil_div total bs ↔ total mod bs = 0).
Proof.
  intros Hbs. unfold ceil_div.
  pose proof (Nat.div_mod_eq total bs) as Hdm.
  pose proof (Nat.mod_upper_bound total bs ltac:(lia)) as Hr.
  destruct (decide (total mod bs = 0)) as [H0|Hn0].
  - split; [done|]. intros _.
    apply (Nat.div_unique _ _ _ (bs - 1)); [lia|nia].
  - split; [|done]. intros Heq. exfalso.
    assert (total / bs + 1 = (total + bs - 1) / bs) as Hq; [|lia].
    apply (Nat.div_unique _ _ _ (total mod bs - 1)); [lia|nia].
Qed.

Lemma last_batch_empty (l : list string) (bs : nat) :
  0 < bs → (last (batches l bs) = Some [] ↔ length l mod bs = 0).
Proof.
  intros Hbs. unfold batches, batch_count.
  rewrite Nat.add_1_r, seq_S, fmap_app.
  change (current_batch l bs <$> [0 + length l / bs])
    with [current_batch l bs (length l / bs)].
  rewrite last_snoc.
  pose proof (Nat.div_mod_eq (length l) bs) as Hdm.
  pose proof (Nat.mod_upper_bound (length l) bs ltac:(lia)) as Hr.
  pose proof (current_batch_length l bs (length l / bs)) as Hlen.
  split.
  - intros [= Hnil]. rewrite Hnil in Hlen. cbn in Hlen. nia.
  - intros H0. f_equal. apply nil_length_inv. nia.
Qed.

(** The run of [map_urls_in_batches] calls [process_batch] once per element
    of [batches], in order, numbering the calls from 1. *)
Lemma orchestrate_loop_spec (old_urls new_urls : list string) (dir : string)
    (bs : nat) (st : run) (n : nat) :
  unusable dir = false →
  let calls := (λ k, batch_result (current_batch new_urls bs k) old_urls (k + 1) dir)
                 <$> seq 0 n in
  for_loop (orchestrate_step old_urls new_urls dir bs) st (seq 0 n)
  = Some (mkRun (effects st ++ concat (fst <$> calls))
            (total_matched st + sum_list ((λ c, c.2.1) <$> calls))
            (total_unmatched st + sum_list ((λ c, c.2.2) <$> calls))).
Proof.
  intros Hdir. unfold for_loop. induction n as [|n IH]; cbn zeta.
  { cbn. rewrite app_nil_r, !Nat.add_0_r. by destruct st. }
  cbn zeta in IH. rewrite seq_S, foldl_app, IH. cbn [foldl plus mbind option_bind].
  unfold orchestrate_step at 1. rewrite process_batch_spec, Hdir, !fmap_app.
  cbn [fmap list_fmap mbind option_bind].
  destruct (batch_result (current_batch new_urls bs n) old_urls (n + 1) dir)
    as [effs [m u]]. cbn [effects total_matched total_unmatched fst snd].
  rewrite concat_app, !sum_list_app. cbn [concat sum_list sum_list_with fmap list_fmap app id].
  rewrite app_nil_r, <- app_assoc.
  do 2 f_equal; lia.
Qed.

(** On a path [os.makedirs] raises on, the first call of [process_batch]
    ends the run. *)
Lemma orchestrate_loop_raises (old_urls new_urls : list string) (dir : string)
    (bs : nat) (st : run) (n : nat) :
  unusable dir = true →
  for_loop (orchestrate_step old_urls new_urls dir bs) st (seq 0 (S n)) = None.
Proof.
  intros Hdir. unfold for_loop. cbn [seq foldl mbind option_bind].
  unfold orchestrate_step at 2. rewrite process_batch_spec, Hdir.
  cbn [mbind option_bind]. generalize (seq 1 n). intros l.
  induction l as [|k l IH]; [done|]. by cbn [foldl mbind option_bind].
Qed.

Lemma map_urls_in_batches_spec (old_rows new_rows : list (list string))
    (dir : string) (bs : nat) :
  0 < bs →
  let calls := imap (λ k batch, batch_result batch (first_column old_rows) (k + 1) dir)
                 (batches (first_column new_rows) bs) in
  map_urls_in_batches old_rows new_rows dir bs
  = if unusable dir then None
    else Some (mkRun (concat (fst <$> calls))
                 (sum_list ((λ c, c.2.1) <$> calls))
                 (sum_list ((λ c, c.2.2) <$> calls))).
Proof.
  intros Hbs. cbn zeta. unfold map_urls_in_batches.
  destruct (decide (bs = 0)); [lia|].
  destruct (unusable dir) eqn:Hdir.
  { unfold batch_count. rewrite Nat.add_1_r. by apply orchestrate_loop_raises. }
  rewrite orchestrate_loop_spec by done.
  cbn [effects total_matched total_unmatched app plus].
  unfold batches. rewrite imap_fmap_seq. reflexivity.
Qed.

(** ** Scores *)

Lemma chars_inj (s t : string) : Str.chars s = Str.chars t → s = t.
Proof.
  unfold Str.chars. intros Heq.
  by rewrite <- (string_of_list_ascii_of_string s), Heq, string_of_list_ascii_of_string.
Qed.

Lemma score_le_1 (q c : string) : (score q c <= 1)%Q.
Proof. apply ratio_le_1. Qed.

Lemma score_1 (q c : string) :
  (score q c == 1)%Q ↔ normalize_url c = normalize_url q.
Proof.
  unfold score. split.
  - by intros ?%ratio_1_inv%chars_inj.
  - intros ->. apply ratio_same.
Qed.


(** * Main results *)

(** C7.  For every URL string [u], [normalize_url u] starts with ["/"] and is
    lower-case (it is its own lower-case form: [lower] leaves it unchanged),
    normalising twice is the same as normalising once, and the empty string
    normalises to ["/"]. *)
Theorem normalize_url_canonical (u : string) :
  Str.startswith (normalize_url u) "/" = true
  ∧ Str.lower (normalize_url u) = normalize_url u
  ∧ normalize_url (normalize_url u) = normalize_url u
  ∧ normalize_url "" = "/".
Proof.
  split; [apply normalize_url_startswith|].
  split; [apply lower_idemp|].
  split; [apply normalize_url_idemp|reflexivity].
Qed.

(** C1.  [find_best_match] returns a pair (candidate, score) exactly when some
    candidate scores strictly above 0.6, that is when the maximum score over
    the candidates exceeds 0.6; the pair then holds a candidate in its
    original form together with the maximum score.  Otherwise, and in
    particular for an empty collection, it returns (no match, 0). *)
Theorem find_best_match_threshold (q : string) (C : list string) :
  ((∃ c s, find_best_match q C = (Some c, s))
     ↔ ∃ c, c ∈ C ∧ (threshold < score q c)%Q)
  ∧ (∀ c s, find_best_match q C = (Some c, s) →
       c ∈ C ∧ s = score q c ∧ (threshold < s)%Q
       ∧ ∀ c', c' ∈ C → (score q c' <= s)%Q)
  ∧ ((∀ c, c ∈ C → (score q c <= threshold)%Q) →
       find_best_match q C = (None, 0%Q))
  ∧ ((∀ c s, find_best_match q C ≠ (Some c, s)) →
       find_best_match q C = (None, 0%Q))
  ∧ find_best_match q [] = (None, 0%Q).
Proof.
  assert (Hsome : ∀ c s, find_best_match q C = (Some c, s) →
            c ∈ C ∧ s = score q c ∧ (threshold < s)%Q
            ∧ ∀ c', c' ∈ C → (score q c' <= s)%Q).
  { intros c s (pre & post & -> & -> & Hlt & Hpre & Hpost)%find_best_match_some.
    split; [apply elem_of_app; right; apply elem_of_cons; by left|].
    split; [done|]. split; [done|].
    intros c' [Hc'|[->|Hc']%elem_of_cons]%elem_of_app.
    - by apply Qlt_le_weak, Hpre.
    - apply Qle_refl.
    - by apply Hpost. }
  assert (Hnone : (∀ c, c ∈ C → (score q c <= threshold)%Q) →
            find_best_match q C = (None, 0%Q)).
  { intros Hle.
    destruct (find_best_match_cases q C)
      as [[Heq _]|(pre & c & post & -> & _ & Hlt & _)]; [done|].
    exfalso. apply (Qlt_not_le _ _ Hlt), Hle.
    apply elem_of_app. right. apply elem_of_cons. by left. }
  split; [split|].
  - intros (c & s & Heq). exists c.
    destruct (Hsome c s Heq) as (Hin & -> & Hlt & _). done.
  - intros (c & Hin & Hlt).
    destruct (find_best_match_cases q C)
      as [[_ Hle]|(pre & c2 & post & _ & Heq & _)]; [|by eauto].
    exfalso. by apply (Qlt_not_le _ _ Hlt), Hle.
  - split; [exact Hsome|]. split; [exact Hnone|]. split; [|reflexivity].
    intros Hno.
    destruct (find_best_match_cases q C)
      as [[Heq _]|(pre & c & post & _ & Heq & _)]; [done|].
    by destruct (Hno _ _ Heq).
Qed.

(** C3 (amended statement).  When the maximum score over the candidates is
    strictly greater than 0.6, whether several candidates tie for it or not,
    [find_best_match] returns the first candidate in corpus order that
    achieves the maximum: every earlier candidate scores strictly less, and
    no candidate scores more. *)
Theorem find_best_match_first_max (q : string) (C : list string) :
  (∃ c, c ∈ C ∧ (threshold < score q c)%Q) →
  ∃ i c,
    find_best_match q C = (Some c, score q c)
    ∧ C !! i = Some c
    ∧ (∀ c', c' ∈ C → (score q c' <= score q c)%Q)
    ∧ ∀ j c', j < i → C !! j = Some c' → (score q c' < score q c)%Q.
Proof.
  intros (c0 & Hc0 & Hlt0).
  destruct (find_best_match_cases q C)
    as [[_ Hle]|(pre & c & post & -> & Heq & Hlt & Hpre & Hpost)].
  { exfalso. by apply (Qlt_not_le _ _ Hlt0), Hle. }
  exists (length pre), c. split; [done|].
  split; [by rewrite list_lookup_middle|]. split.
  - intros c' [Hc'|[->|Hc']%elem_of_cons]%elem_of_app.
    + by apply Qlt_le_weak, Hpre.
    + apply Qle_refl.
    + by apply Hpost.
  - intros j c' Hj Hlook. apply Hpre.
    rewrite lookup_app_l in Hlook by done. by eapply list_elem_of_lookup_2.
Qed.

Lemma find_best_match_first_max_witness :
  ∃ i c,
    find_best_match "ab" ["/about"; "/abX"; "/abY"; "/abX"] = (Some c, score "ab" c)
    ∧ ["/about"; "/abX"; "/abY"; "/abX"] !! i = Some c
    ∧ (∀ c', c' ∈ ["/about"; "/abX"; "/abY"; "/abX"] →
         (score "ab" c' <= score "ab" c)%Q)
    ∧ ∀ j c', j < i → ["/about"; "/abX"; "/abY"; "/abX"] !! j = Some c' →
        (score "ab" c' < score "ab" c)%Q.
Proof.
  apply (find_best_match_first_max "ab" ["/about"; "/abX"; "/abY"; "/abX"]).
  exists "/abX". split; [|by vm_compute].
  apply elem_of_cons. right. apply elem_of_cons. by left.
Defined.

(** C3, as stated, fails when the candidates tie for a maximum that does not
    exceed 0.6: the two candidates below both score 1/4 against the query,
    and the matcher returns no candidate at all instead of the first one. *)
Lemma find_best_match_tie_below_threshold :
  score "/abc" "/xyz" = (2 # 8)%Q
  ∧ score "/abc" "/xyw" = (2 # 8)%Q
  ∧ find_best_match "/abc" ["/xyz"; "/xyw"] = (None, 0%Q).
Proof. repeat split; vm_compute; reflexivity. Qed.

(** C10.  A match that [find_best_match] returns is an element of the
    candidate collection, in its original form, and its score is the
    similarity ratio of the normalised query and the normalised match. *)
Theorem find_best_match_sound (q : string) (C : list string) (best_match : string) (s : Q) :
  find_best_match q C = (Some best_match, s) →
  best_match ∈ C
  ∧ s = difflib.ratio (Str.chars (normalize_url q)) (Str.chars (normalize_url best_match)).
Proof.
  intros (pre & post & -> & -> & _)%find_best_match_some.
  split; [|reflexivity]. apply elem_of_app. right. apply elem_of_cons. by left.
Qed.

Lemma find_best_match_sound_witness :
  "/Products/Shoes" ∈ ["/about-us"; "/Products/Shoes"]
  ∧ (28 # 29)%Q
    = difflib.ratio (Str.chars (normalize_url "products/shoe"))
        (Str.chars (normalize_url "/Products/Shoes")).
Proof.
  apply (find_best_match_sound "products/shoe" ["/about-us"; "/Products/Shoes"]).
  vm_compute. reflexivity.
Defined.

(** C9.  The matcher looks at the query through [normalize_url] only: two
    queries with the same normalised form (case variants, with or without the
    leading slash) get the same candidate and the same score, and so does the
    slash-corrected query that [process_batch] passes. *)
Theorem find_best_match_query_invariant (q q' : string) (C : list string) :
  normalize_url q' = normalize_url q →
  find_best_match q' C = find_best_match q C
  ∧ find_best_match (ensure_slash q') C = find_best_match q C.
Proof.
  intros Heq. unfold find_best_match.
  by rewrite normalize_ensure_slash, Heq.
Qed.

Lemma find_best_match_query_invariant_witness :
  find_best_match "Products/SHOE" ["/about-us"; "/Products/Shoes"]
  = find_best_match "/products/shoe" ["/about-us"; "/Products/Shoes"]
  ∧ find_best_match (ensure_slash "Products/SHOE") ["/about-us"; "/Products/Shoes"]
    = find_best_match "/products/shoe" ["/about-us"; "/Products/Shoes"].
Proof.
  apply (find_best_match_query_invariant "/products/shoe" "Products/SHOE").
  reflexivity.
Defined.

(** C6.  The matched count and the unmatched count that [process_batch]
    returns add up to the number of URLs in the batch. *)
Theorem process_batch_counts (batch old_urls : list string) (n : nat) (dir : string)
    (effs : list effect) (matched unmatched : nat) :
  process_batch batch old_urls n dir = Some (effs, (matched, unmatched)) →
  matched + unmatched = length batch.
Proof.
  intros [_ [= _ -> ->]]%process_batch_Some. apply matched_unmatched_length.
Qed.

Lemma process_batch_counts_witness :
  process_batch ["products/shoe"; "contact"; "/About-Us"]
    ["/products/shoes"; "/about-us"] 1 "out"
  = Some ([Makedirs "out";
           WriteCsv "out/matched_urls_batch_1.csv"
             [["cToUrl"; "cFromUrl"]; ["/products/shoe"; "/products/shoes"];
              ["/About-Us"; "/about-us"]];
           WriteCsv "out/unmatched_urls_batch_1.csv" [["cToUrl"]; ["/contact"]]],
          (2, 1))
  ∧ 2 + 1 = length ["products/shoe"; "contact"; "/About-Us"].
Proof.
  assert (Hcall : process_batch ["products/shoe"; "contact"; "/About-Us"]
                    ["/products/shoes"; "/about-us"] 1 "out"
                  = Some ([Makedirs "out";
                           WriteCsv "out/matched_urls_batch_1.csv"
                             [["cToUrl"; "cFromUrl"];
                              ["/products/shoe"; "/products/shoes"];
                              ["/About-Us"; "/about-us"]];
                           WriteCsv "out/unmatched_urls_batch_1.csv"
                             [["cToUrl"]; ["/contact"]]],
                          (2, 1))) by (vm_compute; reflexivity).
  split; [exact Hcall|].
  exact (process_batch_counts _ _ _ _ _ _ _ Hcall).
Defined.


(** C2 (amended statement).  For a positive batch size the orchestrator runs
    [len(new_urls) // batch_size + 1] batches.  That is one batch more than
    ceiling division needs, the last one being empty, exactly when the number
    of new URLs is a multiple of the batch size, zero included.  Five new URLs
    with batch size 2 give three batches of sizes 2, 2 and 1. *)
Theorem batches_count (new_urls : list string) (batch_size : nat) :
  0 < batch_size →
  length (batches new_urls batch_size) = length new_urls / batch_size + 1
  ∧ (extra_empty_batch new_urls batch_size ↔ length new_urls mod batch_size = 0)
  ∧ (length new_urls = 5 → batch_size = 2 →
       length <$> batches new_urls batch_size = [2; 2; 1]).
Proof.
  intros Hbs. split; [apply batches_length|]. split.
  - unfold extra_empty_batch. rewrite batches_length, last_batch_empty by done.
    pose proof (ceil_div_multiple (length new_urls) batch_size Hbs) as Hceil.
    split; [by intros [_ ?]|]. intros H0. split; [|done].
    f_equal. by apply Hceil.
  - intros Hlen ->.
    destruct new_urls as [|u1 [|u2 [|u3 [|u4 [|u5 [|u6 l]]]]]]; try discriminate.
    reflexivity.
Qed.

Lemma batches_count_witness :
  length (batches ["/a"; "/b"; "/c"; "/d"; "/e"] 2) = 3
  ∧ ¬ extra_empty_batch ["/a"; "/b"; "/c"; "/d"; "/e"] 2
  ∧ length <$> batches ["/a"; "/b"; "/c"; "/d"; "/e"] 2 = [2; 2; 1].
Proof.
  destruct (batches_count ["/a"; "/b"; "/c"; "/d"; "/e"] 2 ltac:(lia))
    as (Hcount & Hextra & Hsizes).
  split; [exact Hcount|]. split; [|by apply Hsizes].
  intros Hex. apply Hextra in Hex. discriminate Hex.
Defined.

(** C2, as stated, fails when there is no new URL: the single batch of the
    run is empty and is one more than ceiling division needs, although zero
    is not a positive multiple of the batch size. *)
Lemma batches_count_no_urls :
  ¬ (extra_empty_batch [] 1 ↔ 0 < length (@nil string) ∧ length (@nil string) mod 1 = 0).
Proof.
  intros [Hto _].
  assert (extra_empty_batch [] 1) as Hextra by (split; reflexivity).
  destruct (Hto Hextra) as [Hpos _]. cbn in Hpos. lia.
Qed.

(** C5.  For a positive batch size, [map_urls_in_batches] hands the slices
    [batches] to [process_batch], in order: a run that returns is made of
    one returning call per slice, numbered from 1, and the run returns unless
    [os.makedirs] raises on the directory.  The concatenation of the slices
    is the sequence of new URLs; each slot of a slice holds the URL at its
    own position of that sequence, distinct slots hold distinct positions,
    and every position is held by a slot: every new URL is in exactly one
    batch. *)
Theorem batches_partition (old_rows new_rows : list (list string)) (dir : string)
    (batch_size : nat) :
  0 < batch_size →
  let new_urls := first_column new_rows in
  let slices := batches new_urls batch_size in
  (is_Some (map_urls_in_batches old_rows new_rows dir batch_size)
     ↔ dir ≠ "" ∧ Ascii.zero ∉ Str.chars dir)
  ∧ (∀ r, map_urls_in_batches old_rows new_rows dir batch_size = Some r →
       ∃ calls,
         imap (λ k batch, process_batch batch (first_column old_rows) (k + 1) dir)
           slices = Some <$> calls
         ∧ effects r = concat (fst <$> calls)
         ∧ total_matched r = sum_list ((λ c, c.2.1) <$> calls)
         ∧ total_unmatched r = sum_list ((λ c, c.2.2) <$> calls))
  ∧ concat slices = new_urls
  ∧ (∀ k j batch u, slices !! k = Some batch → batch !! j = Some u →
       new_urls !! (k * batch_size + j) = Some u)
  ∧ (∀ k j batch k' j' batch',
       slices !! k = Some batch → j < length batch →
       slices !! k' = Some batch' → j' < length batch' →
       k * batch_size + j = k' * batch_size + j' → k = k' ∧ j = j')
  ∧ (∀ i u, new_urls !! i = Some u →
       ∃ k j batch, slices !! k = Some batch ∧ batch !! j = Some u
                    ∧ k * batch_size + j = i).
Proof.
  intros Hbs. cbn zeta. set (new_urls := first_column new_rows).
  assert (Hslot : ∀ k j batch, batches new_urls batch_size !! k = Some batch →
            j < length batch → j < batch_size).
  { intros k j batch [_ ->]%batches_lookup. rewrite current_batch_length. lia. }
  pose proof (map_urls_in_batches_spec old_rows new_rows dir batch_size Hbs) as Hrun.
  cbn zeta in Hrun. fold new_urls in Hrun.
  split; [|split; [|split; [|split; [|split]]]].
  - rewrite Hrun. apply is_Some_unusable.
  - intros r Hr. rewrite Hr in Hrun. destruct (unusable dir) eqn:Hdir; [done|].
    injection Hrun as ->. eexists. split; [|done].
    rewrite fmap_imap. apply imap_ext. intros k batch _. cbn.
    by rewrite process_batch_spec, Hdir.
  - unfold batches. rewrite concat_current_batches. apply take_ge.
    by apply batch_count_covers.
  - intros k j batch u [_ ->]%batches_lookup.
    rewrite current_batch_lookup. by case_decide.
  - intros k j batch k' j' batch' Hk Hj Hk' Hj' Heq.
    pose proof (Hslot _ _ _ Hk Hj). pose proof (Hslot _ _ _ Hk' Hj').
    assert (k = (k * batch_size + j) / batch_size) as Hq
      by (apply (Nat.div_unique _ _ _ j); lia).
    assert (k' = (k' * batch_size + j') / batch_size) as Hq'
      by (apply (Nat.div_unique _ _ _ j'); lia).
    assert (k = k') as -> by congruence. split; lia.
  - intros i u Hi.
    pose proof (Nat.div_mod_eq i batch_size) as Hdm.
    pose proof (Nat.mod_upper_bound i batch_size ltac:(lia)) as Hr.
    pose proof (lookup_lt_Some _ _ _ Hi) as Hlt.
    exists (i / batch_size), (i mod batch_size), (current_batch new_urls batch_size (i / batch_size)).
    split; [|split; [|lia]].
    + apply batches_lookup. split; [|done].
      assert (i / batch_size ≤ length new_urls / batch_size); [|lia].
      apply Nat.Div0.div_le_mono. lia.
    + rewrite current_batch_lookup. case_decide; [|lia].
      rewrite <- Hi. f_equal. lia.
Qed.

Lemma batches_partition_witness :
  concat (batches (first_column [["/a"; "x"]; []; ["/b"]; ["/c"]]) 2)
  = first_column [["/a"; "x"]; []; ["/b"]; ["/c"]].
Proof.
  exact (proj1 (proj2 (proj2 (batches_partition [] [["/a"; "x"]; []; ["/b"]; ["/c"]]
                                "out" 2 ltac:(lia))))).
Defined.

(** C4 (amended statement).  If some candidate has the same normalised form
    as the query (the query is in the collection verbatim, up to case and the
    leading slash), [find_best_match] returns with score 1 the first
    candidate in corpus order that has the query's normalised form; it is
    the given candidate when no other candidate shares that form. *)
Theorem find_best_match_exact (q : string) (C : list string) :
  (∃ c, c ∈ C ∧ normalize_url c = normalize_url q) →
  ∃ c s i,
    find_best_match q C = (Some c, s) ∧ (s == 1)%Q
    ∧ C !! i = Some c ∧ normalize_url c = normalize_url q
    ∧ (∀ j c', j < i → C !! j = Some c' → normalize_url c' ≠ normalize_url q)
    ∧ (∀ c0, c0 ∈ C → normalize_url c0 = normalize_url q →
         (∀ c', c' ∈ C → normalize_url c' = normalize_url q → c' = c0) → c = c0).
Proof.
  intros (c0 & Hc0 & Hn0%score_1).
  destruct (find_best_match_cases q C)
    as [[_ Hle]|(pre & c & post & -> & Heq & Hlt & Hpre & Hpost)].
  { specialize (Hle c0 Hc0). rewrite Hn0 in Hle. by vm_compute in Hle. }
  assert (Hmax : (score q c0 <= score q c)%Q).
  { apply elem_of_app in Hc0 as [Hc0|[->|Hc0]%elem_of_cons].
    - by apply Qlt_le_weak, Hpre.
    - apply Qle_refl.
    - by apply Hpost. }
  assert (Hone : (score q c == 1)%Q).
  { apply Qle_antisym; [apply score_le_1|]. by rewrite <- Hn0. }
  exists c, (score q c), (length pre).
  split; [done|]. split; [done|]. split; [by rewrite list_lookup_middle|].
  split; [by apply score_1|]. split.
  - intros j c' Hj Hlook Hn'%score_1.
    rewrite lookup_app_l in Hlook by done.
    apply list_elem_of_lookup_2 in Hlook. specialize (Hpre c' Hlook).
    rewrite Hn', Hone in Hpre. by apply Qlt_irrefl in Hpre.
  - intros c1 _ _ Honly. apply Honly; [|by apply score_1].
    apply elem_of_app. right. apply elem_of_cons. by left.
Qed.

Lemma find_best_match_exact_witness :
  ∃ c s i,
    find_best_match "About-Us" ["/products"; "/about-us"; "/About-us"] = (Some c, s)
    ∧ (s == 1)%Q
    ∧ ["/products"; "/about-us"; "/About-us"] !! i = Some c
    ∧ normalize_url c = normalize_url "About-Us"
    ∧ (∀ j c', j < i → ["/products"; "/about-us"; "/About-us"] !! j = Some c' →
         normalize_url c' ≠ normalize_url "About-Us")
    ∧ (∀ c0, c0 ∈ ["/products"; "/about-us"; "/About-us"] →
         normalize_url c0 = normalize_url "About-Us" →
         (∀ c', c' ∈ ["/products"; "/about-us"; "/About-us"] →
            normalize_url c' = normalize_url "About-Us" → c' = c0) →
         c = c0).
Proof.
  apply (find_best_match_exact "About-Us" ["/products"; "/about-us"; "/About-us"]).
  exists "/about-us". split; [|reflexivity].
  apply elem_of_cons. right. apply elem_of_cons. by left.
Defined.

(** C4, as stated, fails when an earlier candidate shares the normalised
    form: the second candidate below is the query verbatim, and the matcher
    returns the first one, which differs from it in case. *)
Lemma find_best_match_earlier_variant :
  "/about-us" ∈ ["/About-us"; "/about-us"]
  ∧ normalize_url "/about-us" = normalize_url "/about-us"
  ∧ find_best_match "/about-us" ["/About-us"; "/about-us"]
    = (Some "/About-us", (18 # 18)%Q)
  ∧ ¬ (∃ s, find_best_match "/about-us" ["/About-us"; "/about-us"]
            = (Some "/about-us", s)).
Proof.
  split; [apply elem_of_cons; right; apply elem_of_cons; by left|].
  split; [reflexivity|].
  assert (Hres : find_best_match "/about-us" ["/About-us"; "/about-us"]
                 = (Some "/About-us", (18 # 18)%Q)) by (vm_compute; reflexivity).
  split; [exact Hres|]. intros [s Hs]. rewrite Hres in Hs. discriminate.
Qed.

(** ** The scenarios of the specification, run on the model *)

Example scenario_match :
  find_best_match "/products/shoe" ["/products/shoes"; "/about-us"]
  = (Some "/products/shoes", (28 # 29)%Q).
Proof. vm_compute. reflexivity. Qed.

Example scenario_batch :
  process_batch ["products/shoe"; "contact"] ["/products/shoes"; "/about-us"] 1 "out"
  = Some ([Makedirs "out";
           WriteCsv "out/matched_urls_batch_1.csv"
             [["cToUrl"; "cFromUrl"]; ["/products/shoe"; "/products/shoes"]];
           WriteCsv "out/unmatched_urls_batch_1.csv" [["cToUrl"]; ["/contact"]]],
          (1, 1)).
Proof. vm_compute. reflexivity. Qed.

Example scenario_empty_corpus :
  process_batch ["products"; "/contact"] [] 3 "out"
  = Some ([Makedirs "out";
           WriteCsv "out/unmatched_urls_batch_3.csv"
             [["cToUrl"]; ["/products"]; ["/contact"]]],
          (0, 2)).
Proof. vm_compute. reflexivity. Qed.

Example scenario_five_urls :
  batches ["/a"; "/b"; "/c"; "/d"; "/e"] 2 = [["/a"; "/b"]; ["/c"; "/d"]; ["/e"]].
Proof. reflexivity. Qed.

(** A batch size that divides the number of new URLs: the run ends with a
    call on an empty slice, which creates the directory and writes nothing. *)
Example scenario_exact_multiple :
  map_urls_in_batches [["/old"]] [["/old"]; []; ["zzz"; "ignored"]] "out" 2
  = Some (mkRun
            [Makedirs "out";
             WriteCsv "out/matched_urls_batch_1.csv"
               [["cToUrl"; "cFromUrl"]; ["/old"; "/old"]];
             WriteCsv "out/unmatched_urls_batch_1.csv" [["cToUrl"]; ["/zzz"]];
             Makedirs "out"]
            1 1).
Proof. vm_compute. reflexivity. Qed.

(** A zero batch size stops the run at the division. *)
Example scenario_zero_batch_size :
  map_urls_in_batches [["/old"]] [["/new"]] "out" 0 = None.
Proof. reflexivity. Qed.

(** An empty old URL can be the best match of ["/"]; [if matched_url:] then
    takes the unmatched branch, and the two counts still add up. *)
Example scenario_empty_old_url :
  find_best_match "/" [""] = (Some "", (2 # 2)%Q)
  ∧ process_batch ["/"] [""] 1 "out"
    = Some ([Makedirs "out";
             WriteCsv "out/unmatched_urls_batch_1.csv" [["cToUrl"]; ["/"]]],
            (0, 1)).
Proof. split; vm_compute; reflexivity. Qed.

(** An empty output directory: [os.makedirs] raises in the first call of
    [process_batch], after its loop and before any write. *)
Example scenario_empty_output_dir :
  process_batch ["/new"] ["/old"] 1 "" = None
  ∧ map_urls_in_batches [["/old"]] [["/new"]] "" 1000 = None.
Proof. split; vm_compute; reflexivity. Qed.

(** * Further properties *)

(** ** More on the matcher *)

(** A returned pair is the state the scan ended in. *)
Lemma find_best_match_state (q : string) (C : list string) (c : string) (s : Q) :
  find_best_match q C = (Some c, s) →
  foldl (match_step (normalize_url q)) (None, 0%Q) C = (Some c, s)
  ∧ (threshold < s)%Q.
Proof.
  unfold find_best_match.
  destruct (foldl (match_step (normalize_url q)) (None, 0%Q) C) as [bm bs].
  destruct (Qgtb bs threshold) eqn:Hgt; [|discriminate].
  intros [= -> ->]. split; [done|]. by apply Qgtb_true.
Qed.

Lemma find_best_match_of_state (q : string) (C : list string) (c : string) (s : Q) :
  foldl (match_step (normalize_url q)) (None, 0%Q) C = (Some c, s) →
  (threshold < s)%Q →
  find_best_match q C = (Some c, s).
Proof.
  intros Hst Hlt. unfold find_best_match. rewrite Hst.
  apply Qgtb_true in Hlt. by rewrite Hlt.
Qed.

(** X1.  A score that [find_best_match] returns lies above 0.6 and does not
    exceed 1, and it is 1 exactly when the returned candidate and the query
    have the same normalised form. *)
Theorem find_best_match_score_range (q : string) (C : list string) (c : string) (s : Q) :
  find_best_match q C = (Some c, s) →
  (threshold < s)%Q ∧ (s <= 1)%Q
  ∧ ((s == 1)%Q ↔ normalize_url c = normalize_url q).
Proof.
  intros (pre & post & -> & -> & Hlt & _)%find_best_match_some.
  split; [done|]. split; [apply score_le_1|apply score_1].
Qed.

Lemma find_best_match_score_range_witness :
  (threshold < 28 # 29)%Q ∧ (28 # 29 <= 1)%Q
  ∧ ((28 # 29 == 1)%Q ↔ normalize_url "/products/shoes" = normalize_url "/products/shoe").
Proof.
  apply (find_best_match_score_range "/products/shoe" ["/products/shoes"; "/about-us"]).
  vm_compute. reflexivity.
Defined.

(** X3.  Old URLs appended to the corpus never lose a match nor lower its
    score: the result stays the same unless an appended URL scores strictly
    higher, and then an appended URL is returned. *)
Theorem find_best_match_app (q : string) (C D : list string) (c : string) (s : Q) :
  find_best_match q C = (Some c, s) →
  (∃ c' s', find_best_match q (C ++ D) = (Some c', s') ∧ (s <= s')%Q)
  ∧ ((∀ d, d ∈ D → (score q d <= s)%Q) → find_best_match q (C ++ D) = (Some c, s))
  ∧ ((∃ d, d ∈ D ∧ (s < score q d)%Q) →
       ∃ d, d ∈ D ∧ find_best_match q (C ++ D) = (Some d, score q d)).
Proof.
  intros [Hst Hlt]%find_best_match_state.
  assert (Hfold : foldl (match_step (normalize_url q)) (None, 0%Q) (C ++ D)
                  = foldl (match_step (normalize_url q)) (Some c, s) D)
    by by rewrite foldl_app, Hst.
  destruct (match_loop_spec q D (Some c) s)
    as [[Heq Hle]|(pre & d & post & -> & Heq & Hlt' & Hpre & Hpost)].
  - rewrite Heq in Hfold.
    pose proof (find_best_match_of_state _ _ _ _ Hfold Hlt) as Hres.
    split; [exists c, s; split; [done|apply Qle_refl]|]. split; [done|].
    intros (d & Hd & Hds). exfalso. by apply (Qlt_not_le _ _ Hds), Hle.
  - rewrite Heq in Hfold.
    assert (Hgate : (threshold < score q d)%Q) by by eapply Qlt_trans.
    pose proof (find_best_match_of_state _ _ _ _ Hfold Hgate) as Hres.
    split; [exists d, (score q d); split; [done|by apply Qlt_le_weak]|]. split.
    + intros Hall. exfalso. apply (Qlt_not_le _ _ Hlt'), Hall.
      apply elem_of_app. right. apply elem_of_cons. by left.
    + intros _. exists d. split; [|done].
      apply elem_of_app. right. apply elem_of_cons. by left.
Qed.

Lemma find_best_match_app_witness :
  (∃ c' s', find_best_match "/products/shoe" (["/products/shoes"] ++ ["/about-us"; "/products/shoe"])
            = (Some c', s') ∧ (28 # 29 <= s')%Q)
  ∧ ((∀ d, d ∈ ["/about-us"; "/products/shoe"] → (score "/products/shoe" d <= 28 # 29)%Q) →
       find_best_match "/products/shoe" (["/products/shoes"] ++ ["/about-us"; "/products/shoe"])
       = (Some "/products/shoes", (28 # 29)%Q))
  ∧ ((∃ d, d ∈ ["/about-us"; "/products/shoe"] ∧ (28 # 29 < score "/products/shoe" d)%Q) →
       ∃ d, d ∈ ["/about-us"; "/products/shoe"]
            ∧ find_best_match "/products/shoe"
                (["/products/shoes"] ++ ["/about-us"; "/products/shoe"])
              = (Some d, score "/products/shoe" d)).
Proof.
  apply (find_best_match_app "/products/shoe" ["/products/shoes"]).
  vm_compute. reflexivity.
Defined.

(** ** The first matching block *)

Section FirstBlock.
Import difflib.
Variables a b : list ascii.

Lemma extend_left_size (alo blo i j k : nat) :
  k ≤ m_size (extend_left a b alo blo i j k).
Proof.
  revert j k. induction i as [|i IH]; intros j k; [done|].
  cbn [extend_left]. destruct j as [|j]; [done|].
  destruct (bool_decide (alo < S i) && bool_decide (blo < S j) && elt_eq a b i j);
    [|done].
  specialize (IH j (S k)). lia.
Qed.

Lemma extend_right_size (fuel ahi bhi i j k : nat) :
  k ≤ m_size (extend_right a b fuel ahi bhi i j k).
Proof.
  revert k. induction fuel as [|fuel IH]; intros k; [done|].
  cbn [extend_right].
  destruct (bool_decide (i + k < ahi) && bool_decide (j + k < bhi)
            && elt_eq a b (i + k) (j + k)); [|done].
  specialize (IH (S k)). lia.
Qed.

(** The best block of the table is either the initial empty block or a
    block of positive size. *)
Lemma best_run_init_or_pos (alo blo bhi n : nat) :
  best_run a b alo blo bhi n = mkMatch alo blo 0
  ∨ 1 ≤ m_size (best_run a b alo blo bhi n).
Proof.
  unfold best_run.
  apply (foldl_preserve (λ best, best = mkMatch alo blo 0 ∨ 1 ≤ m_size best));
    [by left|].
  intros i best _ Hbest.
  apply (foldl_preserve (λ best, best = mkMatch alo blo 0 ∨ 1 ≤ m_size best));
    [done|].
  intros j best' _ Hbest'. unfold improve. case_decide; [|done].
  right. cbn. lia.
Qed.

(** Two sequences with the same first element share a block. *)
Lemma find_longest_match_first (ahi bhi : nat) :
  0 < ahi → 0 < bhi → elt_eq a b 0 0 = true →
  1 ≤ m_size (find_longest_match a b (chain_b b) 0 ahi 0 bhi).
Proof.
  intros Ha Hb He. unfold find_longest_match. rewrite longest_run_spec.
  destruct (best_run_init_or_pos 0 0 bhi (ahi - 0)) as [->|Hpos].
  - cbn [m_a m_b m_size extend_left Nat.add].
    replace (ahi - 0) with (S (ahi - 1)) by lia. cbn [extend_right Nat.add].
    rewrite He, !bool_decide_true by done. cbn [andb].
    apply extend_right_size.
  - destruct (best_run a b 0 0 bhi (ahi - 0)) as [i j k]. cbn [m_a m_b m_size] in *.
    pose proof (extend_left_size 0 0 i j k) as Hleft.
    destruct (extend_left a b 0 0 i j k) as [i' j' k']. cbn [m_a m_b m_size] in *.
    pose proof (extend_right_size (ahi - (i' + k')) ahi bhi i' j' k'). lia.
Qed.

Lemma matching_loop_prefix (b2j : gmap ascii (list nat)) (fuel : nat)
    (queue : list (nat * nat * nat * nat)) (acc res : list Match) :
  matching_loop a b b2j fuel queue acc = Some res → ∃ blocks, res = acc ++ blocks.
Proof.
  revert queue acc. induction fuel as [|fuel IH]; intros queue acc.
  { destruct queue as [|[[[? ?] ?] ?] ?]; [|discriminate].
    intros [= <-]. exists []. by rewrite app_nil_r. }
  destruct queue as [|[[[alo ahi] blo] bhi] queue].
  { intros [= <-]. exists []. by rewrite app_nil_r. }
  cbn [matching_loop]. case_decide; [apply IH|].
  intros (blocks & ->)%IH. exists (find_longest_match a b b2j alo ahi blo bhi :: blocks).
  by rewrite <- app_assoc.
Qed.

Lemma matches_pos : elt_eq a b 0 0 = true → 1 ≤ matches a b.
Proof.
  intros He.
  assert (0 < length a ∧ 0 < length b) as [Ha Hb].
  { unfold elt_eq in He.
    destruct (a !! 0) eqn:E1, (b !! 0) eqn:E2; try done.
    apply lookup_lt_Some in E1, E2. done. }
  destruct (matching_loop_total a b) as [res Hres].
  rewrite (matches_raw a b res Hres).
  replace (2 * length a + 1) with (S (2 * length a)) in Hres by lia.
  cbn [matching_loop] in Hres.
  pose proof (find_longest_match_first (length a) (length b) Ha Hb He) as Hk.
  rewrite decide_False in Hres by lia.
  apply matching_loop_prefix in Hres as (blocks & ->).
  rewrite !fmap_app, !sum_list_app. cbn. lia.
Qed.

End FirstBlock.

Lemma chars_cons (c : ascii) (s : string) : Str.chars (String c s) = c :: Str.chars s.
Proof. reflexivity. Qed.

Lemma normalize_url_chars (u : string) :
  ∃ l, Str.chars (normalize_url u) = "/"%char :: l.
Proof.
  destruct (startswith_slash_inv _ (normalize_url_startswith u)) as [s' ->].
  by exists (Str.chars s').
Qed.

Lemma score_pos (q c : string) : (0 < score q c)%Q.
Proof.
  unfold score, difflib.ratio.
  destruct (normalize_url_chars q) as [lq ->], (normalize_url_chars c) as [lc ->].
  fold (difflib.matches ("/"%char :: lq) ("/"%char :: lc)).
  pose proof (matches_pos ("/"%char :: lq) ("/"%char :: lc) eq_refl) as Hm.
  unfold difflib.calculate_ratio. rewrite decide_False by (cbn; lia).
  unfold Qlt. cbn [Qnum Qden]. lia.
Qed.

(** X2.  Every candidate scores strictly above 0 against every query (both
    normalised strings start with ["/"]) and at most 1.  So the scan over a
    non-empty corpus always ends with a candidate in [best_match], and "no
    match" then comes from the 0.6 test alone. *)
Theorem score_range (q : string) (C : list string) :
  (∀ c, (0 < score q c)%Q ∧ (score q c <= 1)%Q)
  ∧ (C ≠ [] →
     ∃ c, c ∈ C
          ∧ foldl (match_step (normalize_url q)) (None, 0%Q) C = (Some c, score q c)
          ∧ (find_best_match q C = (None, 0%Q) ↔ (score q c <= threshold)%Q)).
Proof.
  split; [intros c; split; [apply score_pos|apply score_le_1]|].
  intros Hne.
  destruct (match_loop_spec q C None 0%Q)
    as [[_ Hle]|(pre & c & post & -> & Heq & _)].
  { destruct C as [|c C]; [done|]. exfalso.
    apply (Qlt_not_le _ _ (score_pos q c)), Hle. apply elem_of_cons. by left. }
  exists c. split; [apply elem_of_app; right; apply elem_of_cons; by left|].
  split; [done|]. unfold find_best_match. rewrite Heq.
  destruct (Qgtb (score q c) threshold) eqn:Hgt.
  - apply Qgtb_true in Hgt. split; [discriminate|].
    intros Hle. exfalso. by apply (Qlt_not_le _ _ Hgt).
  - apply Qgtb_false in Hgt. done.
Qed.

(** ** More on normalisation *)

Lemma string_cons_neq (c : ascii) (s : string) : String c s ≠ s.
Proof. induction s as [|d s IH]; [done|]. intros [= -> Hs]. by apply IH. Qed.

Lemma lower_char_slash (c : ascii) : Str.lower_char c = "/"%char → c = "/"%char.
Proof. destruct c as [[] [] [] [] [] [] [] []]; cbv; intros H; done. Qed.

Lemma startswith_slash_lower (s : string) :
  Str.startswith (Str.lower s) "/" = Str.startswith s "/".
Proof.
  destruct (Str.startswith s "/") eqn:Hs; [by apply lower_startswith_slash|].
  destruct (Str.startswith (Str.lower s) "/") eqn:Hl; [|done].
  apply startswith_slash_inv in Hl as [s' Hl].
  destruct s as [|c s]; [discriminate|]. cbn in Hl. injection Hl as Hc _.
  apply lower_char_slash in Hc as ->. by rewrite startswith_slash_cons in Hs.
Qed.

(** X4.  [normalize_url] ignores the case of its argument, and it never
    merges a URL that starts with a slash with the same URL with one more
    leading slash. *)
Theorem normalize_url_shape (u : string) :
  normalize_url (Str.lower u) = normalize_url u
  ∧ (Str.startswith u "/" = true → normalize_url (String "/" u) ≠ normalize_url u).
Proof.
  split.
  - unfold normalize_url, ensure_slash. rewrite startswith_slash_lower.
    destruct (Str.startswith u "/"); cbn [negb].
    + apply lower_idemp.
    + change ("/" +:+ Str.lower u) with (Str.lower ("/" +:+ u)). apply lower_idemp.
  - intros Hu. unfold normalize_url, ensure_slash.
    rewrite startswith_slash_cons, Hu. cbn [negb].
    change (Str.lower (String "/" u)) with (String "/" (Str.lower u)).
    apply string_cons_neq.
Qed.

(** ** More on the batch processor *)

Lemma find_best_match_ensure_slash (u : string) (C : list string) :
  find_best_match (ensure_slash u) C = find_best_match u C.
Proof. unfold find_best_match. by rewrite normalize_ensure_slash. Qed.

Lemma omap_length_filter {A B} (f : A → option B) (l : list A) :
  length (omap f l) = length (filter (λ x, is_Some (f x)) l).
Proof.
  induction l as [|x l IH]; [done|].
  rewrite omap_cons_option_list, filter_cons, length_app, IH.
  destruct (f x) as [y|] eqn:Hfx; cbn.
  - rewrite decide_True by eauto. done.
  - rewrite decide_False by (by intros [? ?]). done.
Qed.

Lemma matched_row_is_Some (old_urls : list string) (u : string) :
  "" ∉ old_urls →
  (is_Some (matched_row old_urls u) ↔ is_Some (find_best_match u old_urls).1).
Proof.
  intros Hne. unfold matched_row. rewrite find_best_match_ensure_slash.
  destruct (find_best_match u old_urls) as [[m|] s] eqn:Hres; cbn [fst].
  - apply find_best_match_some in Hres as (pre & post & -> & _).
    destruct m as [|c m]; cbn.
    + exfalso. apply Hne. apply elem_of_app. right. apply elem_of_cons. by left.
    + split; eauto.
  - done.
Qed.

Lemma unmatched_row_is_Some (old_urls : list string) (u : string) :
  is_Some (unmatched_row old_urls u) ↔ matched_row old_urls u = None.
Proof.
  unfold unmatched_row. destruct (matched_row old_urls u) as [row|].
  - split; [by intros [? ?]|done].
  - split; [done|eauto].
Qed.

(** X5.  When no old URL is the empty string, [process_batch] counts a new
    URL as matched exactly when [find_best_match] returns a candidate for
    it, and as unmatched exactly when it returns none. *)
Theorem process_batch_matched_count (batch old_urls : list string) (n : nat)
    (dir : string) (effs : list effect) (counts : nat * nat) :
  "" ∉ old_urls →
  process_batch batch old_urls n dir = Some (effs, counts) →
  counts
  = (length (filter (λ u, is_Some (find_best_match u old_urls).1) batch),
     length (filter (λ u, (find_best_match u old_urls).1 = None) batch)).
Proof.
  intros Hne [_ [= _ ->]]%process_batch_Some.
  rewrite !omap_length_filter. f_equal; f_equal.
  - apply filter_ext_Forall, Forall_forall. intros u _.
    by apply matched_row_is_Some.
  - apply filter_ext_Forall, Forall_forall. intros u _.
    pose proof (matched_row_is_Some old_urls u Hne) as Hm.
    rewrite unmatched_row_is_Some, !eq_None_not_Some. tauto.
Qed.

Lemma process_batch_matched_count_witness :
  (1, 1)
  = (length (filter (λ u, is_Some (find_best_match u ["/products/shoes"; "/about-us"]).1)
               ["products/shoe"; "contact"]),
     length (filter (λ u, (find_best_match u ["/products/shoes"; "/about-us"]).1 = None)
               ["products/shoe"; "contact"])).
Proof.
  apply (process_batch_matched_count ["products/shoe"; "contact"]
           ["/products/shoes"; "/about-us"] 1 "out"
           [Makedirs "out";
            WriteCsv "out/matched_urls_batch_1.csv"
              [["cToUrl"; "cFromUrl"]; ["/products/shoe"; "/products/shoes"]];
            WriteCsv "out/unmatched_urls_batch_1.csv" [["cToUrl"]; ["/contact"]]]).
  - intros [H|[H|H%elem_of_nil]%elem_of_cons]%elem_of_cons; done.
  - vm_compute. reflexivity.
Defined.





(** ** More on the batch orchestrator *)

Lemma concat_batches (new_urls : list string) (bs : nat) :
  0 < bs → concat (batches new_urls bs) = new_urls.
Proof.
  intros Hbs. unfold batches. rewrite concat_current_batches.
  apply take_ge. by apply batch_count_covers.
Qed.

Lemma data_rows_app (header : list string) (e1 e2 : list effect) :
  data_rows header (e1 ++ e2) = data_rows header e1 ++ data_rows header e2.
Proof. unfold data_rows. apply flat_map_app. Qed.

Lemma data_rows_csv_artifact (header header' : list string) (path : string)
    (rows : list (list string)) :
  data_rows header (csv_artifact path header' rows)
  = if decide (header' = header) then rows else [].
Proof.
  destruct rows as [|row rows]; cbn.
  - by case_decide.
  - case_decide; [|done]. by rewrite app_nil_r.
Qed.

(** The data rows one returning call of [process_batch] writes, by header. *)
Lemma batch_result_data_rows (batch old_urls : list string) (n : nat) (dir : string) :
  data_rows ["cToUrl"; "cFromUrl"] (batch_result batch old_urls n dir).1
  = omap (matched_row old_urls) batch
  ∧ data_rows ["cToUrl"] (batch_result batch old_urls n dir).1
    = omap (unmatched_row old_urls) batch.
Proof.
  unfold batch_result. cbn [fst].
  change (Makedirs dir :: ?l) with ([Makedirs dir] ++ l).
  rewrite !data_rows_app, !data_rows_csv_artifact.
  split.
  - rewrite decide_True, decide_False by done. cbn. by rewrite app_nil_r.
  - rewrite decide_False, decide_True by done. done.
Qed.

(** The calls of a run, for any numbering of the batches. *)
Lemma calls_spec (old_urls : list string) (dir : string) (f : nat → nat)
    (ls : list (list string)) :
  let calls := imap (λ k batch, batch_result batch old_urls (f k) dir) ls in
  sum_list ((λ c, c.2.1) <$> calls) = length (omap (matched_row old_urls) (concat ls))
  ∧ sum_list ((λ c, c.2.2) <$> calls) = length (omap (unmatched_row old_urls) (concat ls))
  ∧ data_rows ["cToUrl"; "cFromUrl"] (concat (fst <$> calls))
    = omap (matched_row old_urls) (concat ls)
  ∧ data_rows ["cToUrl"] (concat (fst <$> calls))
    = omap (unmatched_row old_urls) (concat ls).
Proof.
  revert f. induction ls as [|batch ls IH]; intros f; cbn zeta.
  { done. }
  cbn [imap fmap list_fmap concat sum_list sum_list_with].
  change ((λ (k : nat) (batch0 : list string),
             batch_result batch0 old_urls (f k) dir) ∘ S)
    with (λ (k : nat) (batch0 : list string),
            batch_result batch0 old_urls ((f ∘ S) k) dir).
  destruct (IH (f ∘ S)) as (I1 & I2 & I3 & I4). cbn zeta in I1, I2, I3, I4.
  destruct (batch_result_data_rows batch old_urls (f 0) dir) as [D1 D2].
  rewrite !omap_app, !length_app, !data_rows_app, D1, D2.
  rewrite I1, I2, I3, I4. done.
Qed.

Lemma run_spec (old_rows new_rows : list (list string)) (dir : string) (bs : nat)
    (r : run) :
  0 < bs →
  map_urls_in_batches old_rows new_rows dir bs = Some r →
  total_matched r
  = length (omap (matched_row (first_column old_rows)) (first_column new_rows))
  ∧ total_unmatched r
    = length (omap (unmatched_row (first_column old_rows)) (first_column new_rows))
  ∧ data_rows ["cToUrl"; "cFromUrl"] (effects r)
    = omap (matched_row (first_column old_rows)) (first_column new_rows)
  ∧ data_rows ["cToUrl"] (effects r)
    = omap (unmatched_row (first_column old_rows)) (first_column new_rows).
Proof.
  intros Hbs. rewrite map_urls_in_batches_spec by done.
  destruct (unusable dir); [done|]. intros [= <-].
  cbn [total_matched total_unmatched effects].
  pose proof (calls_spec (first_column old_rows) dir (λ k, k + 1)
                (batches (first_column new_rows) bs)) as Hcalls.
  cbn zeta in Hcalls. rewrite concat_batches in Hcalls by done. exact Hcalls.
Qed.

Lemma first_column_length (rows : list (list string)) :
  length (first_column rows) = length (filter (λ row, row ≠ []) rows).
Proof.
  induction rows as [|row rows IH]; [done|].
  unfold first_column in *. cbn [flat_map]. rewrite length_app, IH, filter_cons.
  destruct row; [by rewrite decide_False by auto|].
  by rewrite decide_True by done.
Qed.

(** X9.  For a positive batch size the totals of a run add up to the number
    of rows of the new-URL file that have at least one column, and each total
    is the number of data rows written under its header. *)
Theorem run_totals (old_rows new_rows : list (list string)) (dir : string) (bs : nat)
    (r : run) :
  0 < bs →
  map_urls_in_batches old_rows new_rows dir bs = Some r →
  total_matched r + total_unmatched r = length (filter (λ row, row ≠ []) new_rows)
  ∧ total_matched r = length (data_rows ["cToUrl"; "cFromUrl"] (effects r))
  ∧ total_unmatched r = length (data_rows ["cToUrl"] (effects r)).
Proof.
  intros Hbs Hrun. destruct (run_spec _ _ _ _ _ Hbs Hrun) as (H1 & H2 & H3 & H4).
  rewrite H1, H2, H3, H4, matched_unmatched_length, first_column_length. done.
Qed.

Lemma run_totals_witness :
  1 + 1 = length (filter (λ row : list string, row ≠ []) [["/old"]; []; ["zzz"; "ignored"]])
  ∧ 1 = length (data_rows ["cToUrl"; "cFromUrl"]
                  [Makedirs "out";
                   WriteCsv "out/matched_urls_batch_1.csv"
                     [["cToUrl"; "cFromUrl"]; ["/old"; "/old"]];
                   WriteCsv "out/unmatched_urls_batch_1.csv" [["cToUrl"]; ["/zzz"]];
                   Makedirs "out"])
  ∧ 1 = length (data_rows ["cToUrl"]
                  [Makedirs "out";
                   WriteCsv "out/matched_urls_batch_1.csv"
                     [["cToUrl"; "cFromUrl"]; ["/old"; "/old"]];
                   WriteCsv "out/unmatched_urls_batch_1.csv" [["cToUrl"]; ["/zzz"]];
                   Makedirs "out"]).
Proof.
  apply (run_totals [["/old"]] [["/old"]; []; ["zzz"; "ignored"]] "out" 2
           (mkRun
              [Makedirs "out";
               WriteCsv "out/matched_urls_batch_1.csv"
                 [["cToUrl"; "cFromUrl"]; ["/old"; "/old"]];
               WriteCsv "out/unmatched_urls_batch_1.csv" [["cToUrl"]; ["/zzz"]];
               Makedirs "out"]
              1 1)).
  - lia.
  - vm_compute. reflexivity.
Defined.

(** X10.  The batch size changes only how the results are split over files:
    two runs on the same inputs with positive batch sizes have the same
    totals and write the same data rows, in the same order, under each
    header. *)
Theorem run_batch_size_independent (old_rows new_rows : list (list string))
    (dir : string) (bs1 bs2 : nat) (r1 r2 : run) :
  0 < bs1 → 0 < bs2 →
  map_urls_in_batches old_rows new_rows dir bs1 = Some r1 →
  map_urls_in_batches old_rows new_rows dir bs2 = Some r2 →
  total_matched r1 = total_matched r2
  ∧ total_unmatched r1 = total_unmatched r2
  ∧ data_rows ["cToUrl"; "cFromUrl"] (effects r1)
    = data_rows ["cToUrl"; "cFromUrl"] (effects r2)
  ∧ data_rows ["cToUrl"] (effects r1) = data_rows ["cToUrl"] (effects r2).
Proof.
  intros Hbs1 Hbs2 Hrun1 Hrun2.
  destruct (run_spec _ _ _ _ _ Hbs1 Hrun1) as (H1 & H2 & H3 & H4).
  destruct (run_spec _ _ _ _ _ Hbs2 Hrun2) as (K1 & K2 & K3 & K4).
  by rewrite H1, H2, H3, H4, K1, K2, K3, K4.
Qed.

Lemma run_batch_size_independent_witness :
  total_matched (mkRun [Makedirs "out";
                        WriteCsv "out/unmatched_urls_batch_1.csv" [["cToUrl"]; ["/a"]];
                        Makedirs "out";
                        WriteCsv "out/unmatched_urls_batch_2.csv" [["cToUrl"]; ["/b"]];
                        Makedirs "out"] 0 2)
  = total_matched (mkRun [Makedirs "out";
                          WriteCsv "out/unmatched_urls_batch_1.csv"
                            [["cToUrl"]; ["/a"]; ["/b"]]] 0 2)
  ∧ total_unmatched (mkRun [Makedirs "out";
                            WriteCsv "out/unmatched_urls_batch_1.csv" [["cToUrl"]; ["/a"]];
                            Makedirs "out";
                            WriteCsv "out/unmatched_urls_batch_2.csv" [["cToUrl"]; ["/b"]];
                            Makedirs "out"] 0 2)
    = total_unmatched (mkRun [Makedirs "out";
                              WriteCsv "out/unmatched_urls_batch_1.csv"
                                [["cToUrl"]; ["/a"]; ["/b"]]] 0 2)
  ∧ data_rows ["cToUrl"; "cFromUrl"]
      [Makedirs "out";
       WriteCsv "out/unmatched_urls_batch_1.csv" [["cToUrl"]; ["/a"]];
       Makedirs "out";
       WriteCsv "out/unmatched_urls_batch_2.csv" [["cToUrl"]; ["/b"]];
       Makedirs "out"]
    = data_rows ["cToUrl"; "cFromUrl"]
        [Makedirs "out";
         WriteCsv "out/unmatched_urls_batch_1.csv" [["cToUrl"]; ["/a"]; ["/b"]]]
  ∧ data_rows ["cToUrl"]
      [Makedirs "out";
       WriteCsv "out/unmatched_urls_batch_1.csv" [["cToUrl"]; ["/a"]];
       Makedirs "out";
       WriteCsv "out/unmatched_urls_batch_2.csv" [["cToUrl"]; ["/b"]];
       Makedirs "out"]
    = data_rows ["cToUrl"]
        [Makedirs "out";
         WriteCsv "out/unmatched_urls_batch_1.csv" [["cToUrl"]; ["/a"]; ["/b"]]].
Proof.
  apply (run_batch_size_independent [["/zzzzzzzz"]] [["a"]; ["b"]] "out" 1 5).
  - lia.
  - lia.
  - vm_compute. reflexivity.
  - vm_compute. reflexivity.
Defined.

(** X11.  For a positive batch size every batch before the last holds
    exactly [batch_size] URLs, and the last one holds the remainder
    [len(new_urls) % batch_size]. *)
Theorem batch_lengths (new_urls : list string) (bs k : nat) (batch : list string) :
  0 < bs →
  batches new_urls bs !! k = Some batch →
  length batch
  = if decide (k < length new_urls / bs) then bs else length new_urls mod bs.
Proof.
  intros Hbs [Hk ->]%batches_lookup. rewrite current_batch_length.
  pose proof (Nat.div_mod_eq (length new_urls) bs) as Hdm.
  pose proof (Nat.mod_upper_bound (length new_urls) bs ltac:(lia)) as Hr.
  case_decide as Hlt.
  - assert (bs * (k + 1) ≤ bs * (length new_urls / bs)) by (apply Nat.mul_le_mono_l; lia).
    lia.
  - assert (k = length new_urls / bs) as -> by lia. lia.
Qed.

Lemma batch_lengths_witness :
  length ["/e"] = if decide (2 < length ["/a"; "/b"; "/c"; "/d"; "/e"] / 2) then 2
                  else length ["/a"; "/b"; "/c"; "/d"; "/e"] mod 2.
Proof.
  apply (batch_lengths ["/a"; "/b"; "/c"; "/d"; "/e"] 2 2 ["/e"]); [lia|reflexivity].
Defined.



(** ** Output paths *)

Lemma chars_app (s t : string) : Str.chars (s +:+ t) = Str.chars s ++ Str.chars t.
Proof.
  induction s as [|c s IH]; [done|].
  rewrite string_app_cons, !chars_cons, IH. done.
Qed.

Lemma string_app_inv_tail (s1 s2 t : string) : s1 +:+ t = s2 +:+ t → s1 = s2.
Proof.
  intros Heq. apply chars_inj. apply (f_equal Str.chars) in Heq.
  rewrite !chars_app in Heq. by apply app_inv_tail in Heq.
Qed.

Lemma to_uint_not_nil (n : nat) : Nat.to_uint n ≠ Decimal.Nil.
Proof.
  intros Hnil. pose proof (Unsigned.to_of (Nat.to_uint n)) as H.
  rewrite Unsigned.of_to, Hnil in H. discriminate H.
Qed.

(** [str] of a number determines the number. *)
Lemma of_nat_inj (n m : nat) : Str.of_nat n = Str.of_nat m → n = m.
Proof.
  unfold Str.of_nat. intros Heq. apply Unsigned.to_uint_inj.
  pose proof (NilZero.usu _ (to_uint_not_nil n)) as Hn.
  pose proof (NilZero.usu _ (to_uint_not_nil m)) as Hm.
  rewrite Heq, Hm in Hn. by injection Hn.
Qed.

Lemma matched_output_path_inj (dir : string) (n m : nat) :
  matched_output_path dir n = matched_output_path dir m → n = m.
Proof.
  unfold matched_output_path. destruct (path_join_prefix dir) as [pre Hpre].
  rewrite !Hpre. intros Heq%String.app_inj%String.app_inj%string_app_inv_tail.
  by apply of_nat_inj.
Qed.

Lemma unmatched_output_path_inj (dir : string) (n m : nat) :
  unmatched_output_path dir n = unmatched_output_path dir m → n = m.
Proof.
  unfold unmatched_output_path. destruct (path_join_prefix dir) as [pre Hpre].
  rewrite !Hpre. intros Heq%String.app_inj%String.app_inj%string_app_inv_tail.
  by apply of_nat_inj.
Qed.

Lemma matched_unmatched_paths_differ (dir : string) (n m : nat) :
  matched_output_path dir n ≠ unmatched_output_path dir m.
Proof.
  unfold matched_output_path, unmatched_output_path.
  destruct (path_join_prefix dir) as [pre Hpre]. rewrite !Hpre.
  intros Heq%String.app_inj. rewrite !string_app_cons in Heq. discriminate Heq.
Qed.

Lemma batch_paths_elem (dir : string) (ks : list nat) (p : string) :
  p ∈ flat_map (batch_paths dir) ks
  ↔ ∃ k, k ∈ ks ∧ (p = matched_output_path dir k ∨ p = unmatched_output_path dir k).
Proof.
  rewrite list_elem_of_In, in_flat_map. unfold batch_paths. split.
  - intros (k & Hk%list_elem_of_In & Hp%list_elem_of_In). exists k. split; [done|].
    apply elem_of_cons in Hp as [->|Hp]; [by left|].
    apply list_elem_of_singleton in Hp as ->. by right.
  - intros (k & Hk & Hp). exists k. rewrite <- !list_elem_of_In. split; [done|].
    destruct Hp as [->| ->]; [apply elem_of_cons; by left|].
    apply elem_of_cons. right. by apply list_elem_of_singleton.
Qed.

Lemma batch_paths_NoDup (dir : string) (ks : list nat) :
  NoDup ks → NoDup (flat_map (batch_paths dir) ks).
Proof.
  induction 1 as [|k ks Hk _ IH]; cbn [flat_map]; [constructor|].
  apply NoDup_app. split; [|split; [|done]].
  - unfold batch_paths. apply NoDup_cons. split; [|apply NoDup_singleton].
    intros Hin%list_elem_of_singleton. by apply matched_unmatched_paths_differ in Hin.
  - intros p Hp (k' & Hk' & Hp')%batch_paths_elem. apply Hk.
    unfold batch_paths in Hp.
    apply elem_of_cons in Hp as [->|Hp]; [|apply list_elem_of_singleton in Hp as ->].
    + destruct Hp' as [Heq|Heq].
      * by apply matched_output_path_inj in Heq as ->.
      * by apply matched_unmatched_paths_differ in Heq.
    + destruct Hp' as [Heq|Heq].
      * symmetry in Heq. by apply matched_unmatched_paths_differ in Heq.
      * by apply unmatched_output_path_inj in Heq as ->.
Qed.

Lemma written_paths_app (e1 e2 : list effect) :
  written_paths (e1 ++ e2) = written_paths e1 ++ written_paths e2.
Proof. unfold written_paths. apply flat_map_app. Qed.

Lemma batch_result_written_paths (batch old_urls : list string) (n : nat) (dir : string) :
  written_paths (batch_result batch old_urls n dir).1 `sublist_of` batch_paths dir n.
Proof.
  unfold batch_result. cbn [fst]. unfold batch_paths.
  destruct (omap (matched_row old_urls) batch), (omap (unmatched_row old_urls) batch);
    cbn; repeat (constructor || done).
Qed.

Lemma calls_written_paths (old_urls : list string) (dir : string) (f : nat → nat)
    (ls : list (list string)) :
  written_paths
    (concat (fst <$> imap (λ k batch, batch_result batch old_urls (f k) dir) ls))
  `sublist_of` flat_map (batch_paths dir) (f <$> seq 0 (length ls)).
Proof.
  revert f. induction ls as [|batch ls IH]; intros f; [done|].
  cbn [imap fmap list_fmap concat length seq flat_map].
  change ((λ (k : nat) (batch0 : list string),
             batch_result batch0 old_urls (f k) dir) ∘ S)
    with (λ (k : nat) (batch0 : list string),
            batch_result batch0 old_urls ((f ∘ S) k) dir).
  rewrite written_paths_app. apply sublist_app.
  - apply batch_result_written_paths.
  - change (list_fmap nat nat f (seq 1 (length ls))) with (f <$> seq 1 (length ls)).
    rewrite <- fmap_S_seq, <- list_fmap_compose. apply IH.
Qed.

(** X13.  Within one run no output file is written twice: the written
    paths are pairwise distinct, and each is the matched or the unmatched
    path of a batch number between 1 and the batch count. *)
Theorem run_paths_distinct (old_rows new_rows : list (list string)) (dir : string)
    (bs : nat) (r : run) :
  0 < bs →
  map_urls_in_batches old_rows new_rows dir bs = Some r →
  NoDup (written_paths (effects r))
  ∧ ∀ p, p ∈ written_paths (effects r) →
      ∃ k, 1 ≤ k ≤ batch_count (length (first_column new_rows)) bs
           ∧ (p = matched_output_path dir k ∨ p = unmatched_output_path dir k).
Proof.
  intros Hbs. rewrite map_urls_in_batches_spec by done.
  destruct (unusable dir); [done|]. intros [= <-].
  cbn [effects].
  pose proof (calls_written_paths (first_column old_rows) dir (λ k, k + 1)
                (batches (first_column new_rows) bs)) as Hsub.
  rewrite batches_length in Hsub. split.
  - eapply sublist_NoDup; [|exact Hsub]. apply batch_paths_NoDup.
    apply NoDup_fmap_2; [|apply NoDup_seq]. intros x y Hxy. lia.
  - intros p Hp. eapply elem_of_sublist in Hp; [|exact Hsub].
    apply batch_paths_elem in Hp as (k & Hk & Hp).
    apply list_elem_of_fmap in Hk as (k0 & -> & Hk0%elem_of_seq).
    exists (k0 + 1). unfold batch_count. split; [lia|done].
Qed.

Lemma run_paths_distinct_witness :
  NoDup (written_paths
           [Makedirs "out";
            WriteCsv "out/unmatched_urls_batch_1.csv" [["cToUrl"]; ["/a"]];
            Makedirs "out";
            WriteCsv "out/unmatched_urls_batch_2.csv" [["cToUrl"]; ["/b"]];
            Makedirs "out"])
  ∧ ∀ p, p ∈ written_paths
               [Makedirs "out";
                WriteCsv "out/unmatched_urls_batch_1.csv" [["cToUrl"]; ["/a"]];
                Makedirs "out";
                WriteCsv "out/unmatched_urls_batch_2.csv" [["cToUrl"]; ["/b"]];
                Makedirs "out"] →
      ∃ k, 1 ≤ k ≤ batch_count (length (first_column [["a"]; ["b"]])) 1
           ∧ (p = matched_output_path "out" k ∨ p = unmatched_output_path "out" k).
Proof.
  apply (run_paths_distinct [["/zzzzzzzz"]] [["a"]; ["b"]] "out" 1
           (mkRun
              [Makedirs "out";
               WriteCsv "out/unmatched_urls_batch_1.csv" [["cToUrl"]; ["/a"]];
               Makedirs "out";
               WriteCsv "out/unmatched_urls_batch_2.csv" [["cToUrl"]; ["/b"]];
               Makedirs "out"] 0 2)).
  - lia.
  - vm_compute. reflexivity.
Defined.

(** ** What the rows say *)

Lemma score_ensure_slash (u c : string) : score (ensure_slash u) c = score u c.
Proof. unfold score. by rewrite normalize_ensure_slash. Qed.

Lemma matched_row_sound (old_urls : list string) (u : string) (row : list string) :
  matched_row old_urls u = Some row →
  ∃ m, m ∈ old_urls ∧ m ≠ "" ∧ row = [ensure_slash u; ensure_slash m]
       ∧ (find_best_match u old_urls).1 = Some m
       ∧ (threshold < score u m)%Q
       ∧ ∀ c, c ∈ old_urls → (score u c <= score u m)%Q.
Proof.
  unfold matched_row. rewrite find_best_match_ensure_slash.
  destruct (find_best_match u old_urls) as [[m|] s] eqn:Hres; cbn [fst]; [|done].
  destruct (Str.truthy m) eqn:Ht; [|done]. intros [= <-].
  apply find_best_match_some in Hres as (pre & post & -> & -> & Hlt & Hpre & Hpost).
  exists m. split; [apply elem_of_app; right; apply elem_of_cons; by left|].
  split; [by intros ->|]. split; [done|]. split; [done|]. split; [done|].
  intros c [Hc|[->|Hc]%elem_of_cons]%elem_of_app.
  - by apply Qlt_le_weak, Hpre.
  - apply Qle_refl.
  - by apply Hpost.
Qed.

Lemma unmatched_row_sound (old_urls : list string) (u : string) (row : list string) :
  unmatched_row old_urls u = Some row →
  row = [ensure_slash u]
  ∧ ((∀ c, c ∈ old_urls → (score u c <= threshold)%Q)
     ∨ (find_best_match u old_urls).1 = Some "").
Proof.
  intros Hrow. split; [by apply unmatched_row_shape in Hrow|].
  apply mk_is_Some, unmatched_row_is_Some in Hrow. unfold matched_row in Hrow.
  rewrite find_best_match_ensure_slash in Hrow.
  destruct (find_best_match_cases u old_urls)
    as [[_ Hle]|(pre & c & post & _ & Heq & _)]; [by left|].
  rewrite Heq in Hrow |- *. cbn [fst] in *. right.
  destruct c; [done|discriminate Hrow].
Qed.

Lemma omap_heads_sublist (f : string → option (list string)) (batch : list string) :
  (∀ u row, f u = Some row → row !! 0 = Some (ensure_slash u)) →
  (λ row : list string, row !! 0) <$> omap f batch
  `sublist_of` (λ u, Some (ensure_slash u)) <$> batch.
Proof.
  intros Hf. induction batch as [|u batch IH]; [done|].
  rewrite omap_cons_option_list, fmap_app, fmap_cons.
  destruct (f u) as [row|] eqn:Hu.
  - change ((λ row : list string, row !! 0) <$> option_list (Some row))
      with [row !! 0].
    rewrite (Hf u row Hu). by apply sublist_skip.
  - by apply sublist_cons.
Qed.

(** X8.  In what a call of [process_batch] has written when it returns,
    every row of the matched file pairs a new URL of the batch with the
    non-empty old URL [find_best_match] returns for it, whose score is above
    0.6 and maximal over the corpus; every row of the unmatched file is a new
    URL for which no old URL scores above 0.6 or the best one is the empty
    string.  In both files the new URLs keep the order of the batch. *)
Theorem process_batch_rows_sound (batch old_urls : list string) (n : nat) (dir : string)
    (effs : list effect) (counts : nat * nat) :
  process_batch batch old_urls n dir = Some (effs, counts) →
  Forall (λ row, ∃ u m, u ∈ batch ∧ m ∈ old_urls ∧ m ≠ ""
                        ∧ row = [ensure_slash u; ensure_slash m]
                        ∧ (find_best_match u old_urls).1 = Some m
                        ∧ (threshold < score u m)%Q
                        ∧ ∀ c, c ∈ old_urls → (score u c <= score u m)%Q)
    (data_rows ["cToUrl"; "cFromUrl"] effs)
  ∧ Forall (λ row, ∃ u, u ∈ batch ∧ row = [ensure_slash u]
                        ∧ ((∀ c, c ∈ old_urls → (score u c <= threshold)%Q)
                           ∨ (find_best_match u old_urls).1 = Some ""))
      (data_rows ["cToUrl"] effs)
  ∧ (λ row : list string, row !! 0) <$> data_rows ["cToUrl"; "cFromUrl"] effs
    `sublist_of` (λ u, Some (ensure_slash u)) <$> batch
  ∧ (λ row : list string, row !! 0) <$> data_rows ["cToUrl"] effs
    `sublist_of` (λ u, Some (ensure_slash u)) <$> batch.
Proof.
  intros [_ Hres]%process_batch_Some.
  assert (effs = (batch_result batch old_urls n dir).1) as -> by by rewrite <- Hres.
  destruct (batch_result_data_rows batch old_urls n dir) as [-> ->].
  split; [|split; [|split]].
  - apply Forall_forall. intros row (u & Hu & Hrow)%list_elem_of_omap.
    apply matched_row_sound in Hrow as (m & ?). by exists u, m.
  - apply Forall_forall. intros row (u & Hu & Hrow)%list_elem_of_omap.
    apply unmatched_row_sound in Hrow as [? ?]. by exists u.
  - apply omap_heads_sublist. intros u row (m & _ & _ & -> & _)%matched_row_sound. done.
  - apply omap_heads_sublist. intros u row [-> _]%unmatched_row_sound. done.
Qed.

Lemma process_batch_rows_sound_witness :
  Forall (λ row, ∃ u m, u ∈ ["products/shoe"; "contact"]
                        ∧ m ∈ ["/products/shoes"; "/about-us"] ∧ m ≠ ""
                        ∧ row = [ensure_slash u; ensure_slash m]
                        ∧ (find_best_match u ["/products/shoes"; "/about-us"]).1 = Some m
                        ∧ (threshold < score u m)%Q
                        ∧ ∀ c, c ∈ ["/products/shoes"; "/about-us"] →
                               (score u c <= score u m)%Q)
    [["/products/shoe"; "/products/shoes"]].
Proof.
  exact (proj1 (process_batch_rows_sound ["products/shoe"; "contact"]
                  ["/products/shoes"; "/about-us"] 1 "out"
                  [Makedirs "out";
                   WriteCsv "out/matched_urls_batch_1.csv"
                     [["cToUrl"; "cFromUrl"]; ["/products/shoe"; "/products/shoes"]];
                   WriteCsv "out/unmatched_urls_batch_1.csv" [["cToUrl"]; ["/contact"]]]
                  (1, 1) eq_refl)).
Defined.
